(** * OCR benchmark suite: metrics engine and evaluation pipeline

    A shallow embedding of [ocr_benchmark/metrics.py] and
    [ocr_benchmark/evaluator.py], with the properties of the metric functions,
    of the per-method aggregation and of the orchestrator.

    Conventions.
    - A Python [str] is the list of its code points ([N]); a one-character
      string, as produced by [list(text)], is a single code point.
    - A Python [float] is an IEEE 754 binary64 number: Rocq's primitive
      [float].  A Python [int] that only counts (lengths, distances, token
      counts) is a [nat].
    - [unicodedata.normalize("NFKC", _)] and [str.lower] are functions of the
      Python runtime, driven by the Unicode character database.  They are
      operations of a class, [Unicode]; what the development needs to know of
      them on ASCII text is stated in the class [AsciiLaws]. *)

From Stdlib Require Import String Ascii.
From Stdlib Require Import List Arith Lia Bool NArith ZArith Permutation.
From Stdlib Require Import Floats Uint63.
Import ListNotations.

Set Implicit Arguments.

(* ------------------------------------------------------------------ *)
(** ** Text *)

Definition char := N.
Definition str := list char.

Definition str_eq_dec : forall a b : str, {a = b} + {a <> b} :=
  list_eq_dec N.eq_dec.

(** The code points of an ASCII literal. *)
Definition py (s : string) : str :=
  map N_of_ascii (list_ascii_of_string s).

(** The runtime's Unicode operations: [unicodedata.normalize("NFKC", s)] and
    [s.lower()]. *)
Class Unicode := {
  nfkc : str -> str;
  lower : str -> str
}.

Definition is_ascii (c : char) : bool := (c <? 128)%N.

(** [c.lower()] of an ASCII character. *)
Definition ascii_lower (c : char) : char :=
  if ((65 <=? c) && (c <=? 90))%N then (c + 32)%N else c.

(** On ASCII text NFKC changes nothing and [lower] maps [A-Z] to [a-z]. *)
Class AsciiLaws (U : Unicode) : Prop := {
  nfkc_ascii : forall s, forallb is_ascii s = true -> nfkc s = s;
  lower_ascii : forall s, forallb is_ascii s = true -> lower s = map ascii_lower s
}.

(** The characters [str.isspace] accepts; the class [\s] of [re] on a [str]
    pattern and the default of [str.strip] and [str.split] are this set. *)
Definition is_space (c : char) : bool :=
  (((9 <=? c) && (c <=? 13))
   || ((28 <=? c) && (c <=? 32))
   || (c =? 133) || (c =? 160) || (c =? 5760)
   || ((8192 <=? c) && (c <=? 8202))
   || (c =? 8232) || (c =? 8233) || (c =? 8239) || (c =? 8287)
   || (c =? 12288))%N.

Definition SPACE : char := 32%N.

(** [_WHITESPACE_RE.sub(" ", s)] with [_WHITESPACE_RE = re.compile(r"\s+")]:
    every maximal run of whitespace becomes one space.  [in_run] says that
    the previous character belonged to the run being replaced. *)
Fixpoint sub_run (in_run : bool) (s : str) : str :=
  match s with
  | [] => []
  | c :: rest =>
      if is_space c
      then (if in_run then sub_run true rest else SPACE :: sub_run true rest)
      else c :: sub_run false rest
  end.

Definition whitespace_sub (s : str) : str := sub_run false s.

(** [s.lstrip()] and [s.strip()]. *)
Fixpoint lstrip (s : str) : str :=
  match s with
  | [] => []
  | c :: rest => if is_space c then lstrip rest else s
  end.

Definition strip (s : str) : str := rev (lstrip (rev (lstrip s))).

(** [s.rstrip()] by recursion on the string; [strip_lstrip_rstrip] relates
    it to [strip]. *)
Fixpoint rstrip (s : str) : str :=
  match s with
  | [] => []
  | c :: rest =>
      match rstrip rest with
      | [] => if is_space c then [] else [c]
      | kept => c :: kept
      end
  end.

(** Every whitespace character of [s] is a space and follows a character
    that is not whitespace; [after_space] says that [s] follows a
    whitespace character. *)
Fixpoint single_spaced (after_space : bool) (s : str) : Prop :=
  match s with
  | [] => True
  | c :: rest =>
      if is_space c
      then c = SPACE /\ after_space = false /\ single_spaced true rest
      else single_spaced false rest
  end.

(** [s.split()]: the maximal runs of non-whitespace, in order.  [word] is
    the run being read. *)
Fixpoint split_run (word : str) (s : str) : list str :=
  match s with
  | [] => match word with [] => [] | _ => [word] end
  | c :: rest =>
      if is_space c
      then match word with
           | [] => split_run [] rest
           | _ => word :: split_run [] rest
           end
      else split_run (word ++ [c]) rest
  end.

Definition split (s : str) : list str := split_run [] s.

Section Normalize.
Context {U : Unicode}.

(** [normalize_text(text, *, lowercase=True)] *)
Definition normalize_text_with (lowercase : bool) (text : str) : str :=
  let normalized := nfkc text in
  let normalized := if lowercase then lower normalized else normalized in
  let normalized := whitespace_sub normalized in
  strip normalized.

Definition normalize_text (text : str) : str :=
  normalize_text_with true text.

Definition _to_char_sequence (text : str) : list char := text.

Definition _to_word_sequence (text : str) : list str :=
  split (normalize_text text).
End Normalize.

(* ------------------------------------------------------------------ *)
(** ** Edit distance *)

Section Levenshtein.
Variable T : Type.
Variable T_eq_dec : forall x y : T, {x = y} + {x <> y}.

(** The inner [for j, hyp_item in enumerate(hypothesis, start=1)] loop.
    [hypothesis] is what is left to read and [j] the index of its head. *)
Fixpoint inner_loop (ref_item : T) (hypothesis : list T) (j : nat)
         (previous_row current_row : list nat) : list nat :=
  match hypothesis with
  | [] => current_row
  | hyp_item :: rest =>
      let insert_cost := nth (j - 1) current_row 0 + 1 in
      let delete_cost := nth j previous_row 0 + 1 in
      let replace_cost :=
        nth (j - 1) previous_row 0
        + (if T_eq_dec ref_item hyp_item then 0 else 1) in
      inner_loop ref_item rest (S j) previous_row
        (current_row ++ [Nat.min insert_cost (Nat.min delete_cost replace_cost)])
  end.

(** One pass of the outer [for ref_item in reference] loop. *)
Definition next_row (hypothesis : list T) (previous_row : list nat)
           (ref_item : T) : list nat :=
  inner_loop ref_item hypothesis 1 previous_row [nth 0 previous_row 0 + 1].

(** [_levenshtein_distance(reference, hypothesis)] *)
Definition _levenshtein_distance (reference hypothesis : list T) : nat :=
  if list_eq_dec T_eq_dec reference hypothesis then 0
  else match reference, hypothesis with
       | [], _ => length hypothesis
       | _, [] => length reference
       | _, _ =>
           let previous_row := seq 0 (length hypothesis + 1) in
           let previous_row :=
             fold_left (next_row hypothesis) reference previous_row in
           last previous_row 0
       end.

(** The textbook recurrence, reading both sequences from their heads. *)
Fixpoint lev (a : list T) : list T -> nat :=
  match a with
  | [] => fun b => length b
  | x :: a' =>
      fix lev_x (b : list T) : nat :=
        match b with
        | [] => length a
        | y :: b' =>
            Nat.min (lev_x b' + 1)
              (Nat.min (lev a' b + 1)
                 (lev a' b' + (if T_eq_dec x y then 0 else 1)))
        end
  end.

(** Row [i] of the table of the recurrence, for the prefix of the reference
    whose reversal is [rr]: entry [k] is the distance between that prefix
    and the first [k] items of the hypothesis. *)
Definition lev_row (rr hypothesis : list T) : list nat :=
  map (fun k => lev rr (rev (firstn k hypothesis)))
      (seq 0 (length hypothesis + 1)).
End Levenshtein.

(* ------------------------------------------------------------------ *)
(** ** Numbers *)

(** The [float] of a count.  A Python [int / int] is the correctly rounded
    quotient; for counts below [2^53] (every length a run can hold) the
    operands convert exactly and the quotient is the IEEE division of the two
    floats. *)
Definition float_of_nat (n : nat) : float :=
  PrimFloat.of_uint63 (Uint63.of_Z (Z.of_nat n)).

(** [a / b] on two counts. *)
Definition int_div (a b : nat) : float :=
  (float_of_nat a / float_of_nat b)%float.

(** [sum(values)] on floats: the start value [0], then the items from left
    to right.  (From Python 3.12 on the sum of floats is compensated and can
    differ from this one in its last bits; no statement of this file
    depends on how the sum is rounded.) *)
Definition py_sum (values : list float) : float :=
  fold_left PrimFloat.add values 0%float.

(* ------------------------------------------------------------------ *)
(** ** Dictionaries

    A [dict] with [str] keys, in insertion order. *)

Definition dict (V : Type) := list (str * V).

Fixpoint dict_get {V} (d : dict V) (k : str) : option V :=
  match d with
  | [] => None
  | (k', v) :: rest => if str_eq_dec k k' then Some v else dict_get rest k
  end.

(** [d[k] = v]: the value of an existing key is replaced where it stands, a
    new key goes last. *)
Fixpoint dict_set {V} (d : dict V) (k : str) (v : V) : dict V :=
  match d with
  | [] => [(k, v)]
  | (k', v') :: rest =>
      if str_eq_dec k k' then (k, v) :: rest else (k', v') :: dict_set rest k v
  end.

(** [d.setdefault(k, []).append(v)] *)
Fixpoint dict_append {V} (d : dict (list V)) (k : str) (v : V)
  : dict (list V) :=
  match d with
  | [] => [(k, [v])]
  | (k', vs) :: rest =>
      if str_eq_dec k k' then (k', vs ++ [v]) :: rest
      else (k', vs) :: dict_append rest k v
  end.

(* ------------------------------------------------------------------ *)
(** ** Counters

    [collections.Counter] over tokens: each distinct token with its count, in
    order of first occurrence. *)

Definition Counter := list (str * nat).

Fixpoint counter_get (c : Counter) (t : str) : nat :=
  match c with
  | [] => 0
  | (t', n) :: rest => if str_eq_dec t t' then n else counter_get rest t
  end.

Fixpoint counter_incr (c : Counter) (t : str) : Counter :=
  match c with
  | [] => [(t, 1)]
  | (t', n) :: rest =>
      if str_eq_dec t t' then (t', S n) :: rest else (t', n) :: counter_incr rest t
  end.

(** [Counter(tokens)] *)
Definition counter_of (tokens : list str) : Counter :=
  fold_left counter_incr tokens [].

(** [a & b]: the minimum of the two counts, kept when positive. *)
Fixpoint counter_and (a b : Counter) : Counter :=
  match a with
  | [] => []
  | (t, n) :: rest =>
      let m := Nat.min n (counter_get b t) in
      if 0 <? m then (t, m) :: counter_and rest b else counter_and rest b
  end.

(** [sum(c.values())] *)
Definition counter_total (c : Counter) : nat :=
  fold_left Nat.add (map snd c) 0.

(* ------------------------------------------------------------------ *)
(** ** Metrics *)

Section Metrics.
Context {U : Unicode}.

(** [character_error_rate(reference, hypothesis)] *)
Definition character_error_rate (reference hypothesis : str) : float :=
  let ref_chars := _to_char_sequence (normalize_text reference) in
  let hyp_chars := _to_char_sequence (normalize_text hypothesis) in
  match ref_chars with
  | [] => match hyp_chars with [] => 0%float | _ => 1%float end
  | _ =>
      let distance := _levenshtein_distance N.eq_dec ref_chars hyp_chars in
      int_div distance (length ref_chars)
  end.

(** [word_error_rate(reference, hypothesis)] *)
Definition word_error_rate (reference hypothesis : str) : float :=
  let ref_tokens := _to_word_sequence reference in
  let hyp_tokens := _to_word_sequence hypothesis in
  match ref_tokens with
  | [] => match hyp_tokens with [] => 0%float | _ => 1%float end
  | _ =>
      let distance := _levenshtein_distance str_eq_dec ref_tokens hyp_tokens in
      int_div distance (length ref_tokens)
  end.

(** [token_precision_recall_f1(reference, hypothesis)] *)
Definition token_precision_recall_f1 (reference hypothesis : str)
  : float * float * float :=
  let ref_tokens := _to_word_sequence reference in
  let hyp_tokens := _to_word_sequence hypothesis in
  let ref_counter := counter_of ref_tokens in
  let hyp_counter := counter_of hyp_tokens in
  let overlap := counter_total (counter_and ref_counter hyp_counter) in
  let ref_total := counter_total ref_counter in
  let hyp_total := counter_total hyp_counter in
  let precision :=
    match hyp_total with 0 => 0%float | _ => int_div overlap hyp_total end in
  let recall :=
    match ref_total with 0 => 0%float | _ => int_div overlap ref_total end in
  let f1 :=
    if PrimFloat.eqb (precision + recall) 0
    then 0%float
    else (2 * precision * recall / (precision + recall))%float in
  (precision, recall, f1).

(** [exact_match(reference, hypothesis)] *)
Definition exact_match (reference hypothesis : str) : float :=
  if str_eq_dec (normalize_text reference) (normalize_text hypothesis)
  then 1%float else 0%float.

(** [compute_metrics(reference, hypothesis)] *)
Definition compute_metrics (reference hypothesis : str) : dict float :=
  let cer := character_error_rate reference hypothesis in
  let wer := word_error_rate reference hypothesis in
  let '(precision, recall, f1) :=
    token_precision_recall_f1 reference hypothesis in
  let em := exact_match reference hypothesis in
  [ (py "character_error_rate", cer);
    (py "word_error_rate", wer);
    (py "token_precision", precision);
    (py "token_recall", recall);
    (py "token_f1", f1);
    (py "exact_match", em) ].
End Metrics.

(** [aggregate_confidences(confidences)] *)
Definition aggregate_confidences (confidences : list (option float))
  : option float :=
  let filtered :=
    flat_map (fun c => match c with Some x => [x] | None => [] end)
             confidences in
  match filtered with
  | [] => None
  | _ => Some (py_sum filtered / float_of_nat (length filtered))%float
  end.

(** [safe_mean(values)] *)
Definition safe_mean (values : list float) : float :=
  match values with
  | [] => nan
  | _ => (py_sum values / float_of_nat (length values))%float
  end.

(* ------------------------------------------------------------------ *)
(** ** Records of the evaluator *)

(** [data_loader.DocumentSample]; [Meta] stands for [Dict[str, Any]]. *)
Module DocumentSample.
Record t (Meta : Type) := make {
  id : str;
  source : str;
  ground_truth : str;
  metadata : Meta
}.
End DocumentSample.

(** [models.base.OcrResult] *)
Module OcrResult.
Record t (Meta : Type) := make {
  text : str;
  confidence : option float;
  metadata : Meta
}.
End OcrResult.

Module SampleEvaluation.
Record t (Meta : Type) := make {
  sample_id : str;
  prediction : str;
  ground_truth : str;
  metrics : dict float;
  confidence : option float;
  latency_seconds : float;
  extractor_metadata : Meta
}.
End SampleEvaluation.

Module MethodEvaluation.
Record t (Meta : Type) := make {
  method_name : str;
  aggregated_metrics : dict float;
  average_confidence : option float;
  average_latency_seconds : float;
  samples : list (SampleEvaluation.t Meta)
}.
End MethodEvaluation.

Module BenchmarkReport.
Record t (Meta : Type) := make {
  dataset_size : nat;
  methods : dict (MethodEvaluation.t Meta);
  metadata : dict str
}.
End BenchmarkReport.

(* ------------------------------------------------------------------ *)
(** ** Effects

    The evaluator calls out of the program: an extractor's [run] and
    [cleanup], [time.perf_counter] and the wall clock.  [World] is the state
    these calls read and change (files, network, clocks, the extractors'
    own fields); a call either returns or raises an exception of [Exn].
    The state of a computation is the world and the log of the calls made
    to extractors, in order. *)

Inductive result (E A : Type) : Type :=
| Ok (a : A)
| Raise (e : E).
Arguments Ok {E A} a.
Arguments Raise {E A} e.

Inductive event : Type :=
| RunCalled (extractor_name sample_id : str)
| CleanupCalled (extractor_name : str).

Definition event_eq_dec : forall a b : event, {a = b} + {a <> b}.
Proof. decide equality; apply str_eq_dec. Defined.

Section Evaluator.
Variables World Exn Meta : Type.

(** [models.base.BaseExtractor]: [name], [run(sample)], which may raise, and
    [cleanup()], which returns [None]. *)
Record BaseExtractor := {
  name : str;
  ext_run : DocumentSample.t Meta -> World -> result Exn (OcrResult.t Meta) * World;
  ext_cleanup : World -> World
}.

(** [time.perf_counter()] and
    [time.strftime("%Y-%m-%dT%H:%M:%SZ", time.gmtime())]. *)
Variable perf_counter : World -> float * World.
Variable timestamp_now : World -> str * World.

Record state := {
  world : World;
  trace : list event
}.

Definition M (A : Type) : Type := state -> result Exn A * state.

Definition ret {A} (a : A) : M A := fun st => (Ok a, st).

Definition bind {A B} (m : M A) (k : A -> M B) : M B :=
  fun st =>
    match m st with
    | (Ok a, st') => k a st'
    | (Raise e, st') => (Raise e, st')
    end.

Notation "x <- m ;; k" := (bind m (fun x => k))
  (at level 61, m at next level, right associativity).

(** An effect of the world that cannot fail. *)
Definition lift {A} (f : World -> A * World) : M A :=
  fun st =>
    let (a, w) := f (world st) in
    (Ok a, {| world := w; trace := trace st |}).

Definition log (ev : event) : M unit :=
  fun st => (Ok tt, {| world := world st; trace := trace st ++ [ev] |}).

(** [extractor.run(sample)] *)
Definition call_run (extractor : BaseExtractor) (sample : DocumentSample.t Meta)
  : M (OcrResult.t Meta) :=
  _ <- log (RunCalled (name extractor) (DocumentSample.id sample)) ;;
  fun st =>
    let (r, w) := ext_run extractor sample (world st) in
    (r, {| world := w; trace := trace st |}).

(** [extractor.cleanup()] *)
Definition call_cleanup (extractor : BaseExtractor) : M unit :=
  _ <- log (CleanupCalled (name extractor)) ;;
  lift (fun w => (tt, ext_cleanup extractor w)).

Context {U : Unicode}.

(** The four accumulators of [evaluate_method]. *)
Record accumulators := {
  sample_reports : list (SampleEvaluation.t Meta);
  metric_accumulator : dict (list float);
  confidences : list (option float);
  latencies : list float
}.

(** The body of [for sample in self.samples] in [evaluate_method]. *)
Definition evaluate_sample (extractor : BaseExtractor)
           (acc : accumulators) (sample : DocumentSample.t Meta)
  : M accumulators :=
  start <- lift perf_counter ;;
  result <- call_run extractor sample ;;
  stop <- lift perf_counter ;;
  let latency := (stop - start)%float in
  let metrics :=
    compute_metrics (DocumentSample.ground_truth sample)
                    (OcrResult.text result) in
  let metric_accumulator :=
    fold_left (fun d kv => dict_append d (fst kv) (snd kv))
              metrics (metric_accumulator acc) in
  ret {| sample_reports :=
           sample_reports acc ++
           [ SampleEvaluation.make
               (DocumentSample.id sample)
               (OcrResult.text result)
               (DocumentSample.ground_truth sample)
               metrics
               (OcrResult.confidence result)
               latency
               (OcrResult.metadata result) ];
         metric_accumulator := metric_accumulator;
         confidences := confidences acc ++ [OcrResult.confidence result];
         latencies := latencies acc ++ [latency] |}.

Fixpoint evaluate_loop (extractor : BaseExtractor)
         (samples : list (DocumentSample.t Meta)) (acc : accumulators)
  : M accumulators :=
  match samples with
  | [] => ret acc
  | sample :: rest =>
      acc' <- evaluate_sample extractor acc sample ;;
      evaluate_loop extractor rest acc'
  end.

(** The accumulators before the loop: three empty lists and an empty dict. *)
Definition no_accumulators : accumulators :=
  {| sample_reports := []; metric_accumulator := [];
     confidences := []; latencies := [] |}.

(** [BenchmarkRunner.evaluate_method(extractor)], with [self.samples] as
    [samples]. *)
Definition evaluate_method (samples : list (DocumentSample.t Meta))
           (extractor : BaseExtractor) : M (MethodEvaluation.t Meta) :=
  acc <- evaluate_loop extractor samples no_accumulators ;;
  let aggregated :=
    map (fun kv => (fst kv, safe_mean (snd kv))) (metric_accumulator acc) in
  let avg_confidence := aggregate_confidences (confidences acc) in
  let avg_latency := safe_mean (latencies acc) in
  ret (MethodEvaluation.make (name extractor) aggregated avg_confidence
         avg_latency (sample_reports acc)).

(** The [for extractor in extractors] loop of [run]. *)
Fixpoint run_loop (samples : list (DocumentSample.t Meta))
         (extractors : list BaseExtractor)
         (methods : dict (MethodEvaluation.t Meta))
  : M (dict (MethodEvaluation.t Meta)) :=
  match extractors with
  | [] => ret methods
  | extractor :: rest =>
      evaluation <- evaluate_method samples extractor ;;
      let methods := dict_set methods (name extractor) evaluation in
      _ <- call_cleanup extractor ;;
      run_loop samples rest methods
  end.

(** [BenchmarkRunner.run(extractors)] *)
Definition run (samples : list (DocumentSample.t Meta))
           (extractors : list BaseExtractor) : M (BenchmarkReport.t Meta) :=
  methods <- run_loop samples extractors [] ;;
  stamp <- lift timestamp_now ;;
  let metadata := [(py "timestamp", stamp)] in
  ret (BenchmarkReport.make (length samples) methods metadata).

(** *** Vocabulary of the statements about runs *)

(** Every extraction call that evaluating [samples] with [extractor] makes
    from the world [w] returns: the world after the last one; [None] as soon
    as a call raises. *)
Fixpoint extractions_succeed (extractor : BaseExtractor)
         (samples : list (DocumentSample.t Meta)) (w : World) : option World :=
  match samples with
  | [] => Some w
  | sample :: rest =>
      let (_, w1) := perf_counter w in
      match ext_run extractor sample w1 with
      | (Ok _, w2) =>
          let (_, w3) := perf_counter w2 in
          extractions_succeed extractor rest w3
      | (Raise _, _) => None
      end
  end.

(** The same for a whole run: each extractor in turn, its cleanup after its
    samples. *)
Fixpoint all_extractions_succeed (extractors : list BaseExtractor)
         (samples : list (DocumentSample.t Meta)) (w : World) : option World :=
  match extractors with
  | [] => Some w
  | extractor :: rest =>
      match extractions_succeed extractor samples w with
      | Some w' =>
          all_extractions_succeed rest samples (ext_cleanup extractor w')
      | None => None
      end
  end.

(** The calls of [run] on one sample after the other. *)
Definition run_calls (extractor : BaseExtractor)
           (samples : list (DocumentSample.t Meta)) : list event :=
  map (fun sample => RunCalled (name extractor) (DocumentSample.id sample))
      samples.

(** The calls a run makes when nothing fails: for each extractor in turn,
    [run] on every sample in order and then [cleanup]. *)
Definition calls_of_run (extractors : list BaseExtractor)
           (samples : list (DocumentSample.t Meta)) : list event :=
  flat_map (fun extractor =>
              run_calls extractor samples ++ [CleanupCalled (name extractor)])
           extractors.

End Evaluator.

(** The records of [m] are those of [samples], one for each and in the
    same order. *)
Definition records_in_order {Meta} (samples : list (DocumentSample.t Meta))
           (m : MethodEvaluation.t Meta) : Prop :=
  map (@SampleEvaluation.sample_id Meta) (MethodEvaluation.samples m)
  = map (@DocumentSample.id Meta) samples
  /\ map (@SampleEvaluation.ground_truth Meta) (MethodEvaluation.samples m)
     = map (@DocumentSample.ground_truth Meta) samples.

(** The arithmetic mean of floats: their sum divided by their number. *)
Definition arithmetic_mean (values : list float) : float :=
  (py_sum values / float_of_nat (length values))%float.

(** The confidences that are present, in order. *)
Fixpoint present_confidences (confidences : list (option float)) : list float :=
  match confidences with
  | [] => []
  | Some c :: rest => c :: present_confidences rest
  | None :: rest => present_confidences rest
  end.

(* ------------------------------------------------------------------ *)
(** ** Instances of the runtime

    Two implementations of [Unicode] on which the functions above compute.
    [ascii_unicode] is the runtime on ASCII text.  [ucd_fragment] adds the
    one composition of the Unicode character database that the development
    looks at: NFKC composes [j] (U+006A) followed by the combining caron
    (U+030C) into U+01F0, which has no capital counterpart, so that
    [J] (U+004A) followed by U+030C is left as it is. *)

Definition ascii_unicode : Unicode :=
  {| nfkc := fun s => s; lower := map ascii_lower |}.

Fixpoint compose_j_caron (s : str) : str :=
  match s with
  | [] => []
  | c :: rest =>
      match rest with
      | d :: rest' =>
          if ((c =? 106) && (d =? 780))%N
          then 496%N :: compose_j_caron rest'
          else c :: compose_j_caron rest
      | [] => [c]
      end
  end.

Definition ucd_fragment : Unicode :=
  {| nfkc := compose_j_caron; lower := map ascii_lower |}.

(** [J] followed by the combining caron. *)
Definition capital_j_caron : str := [74%N; 780%N].

(* ------------------------------------------------------------------ *)
(** ** A small run

    A world that is a clock counting its readings, exceptions that are
    messages, no metadata; an extractor that returns the transcription with
    full confidence, as [PlainTextExtractor] does on the transcription's
    own file, and one that raises on the sample "b". *)

Module Example.

Definition World := nat.
Definition Exn := str.
Definition Meta := unit.

Definition perf_counter (w : World) : float * World := (float_of_nat w, S w).

Definition timestamp_now (w : World) : str * World :=
  (py "2024-01-01T00:00:00Z", w).

Definition sample (id ground_truth : string) : DocumentSample.t Meta :=
  DocumentSample.make (py id) (py (id ++ ".txt")) (py ground_truth) tt.

Definition samples : list (DocumentSample.t Meta) :=
  [sample "a" "cat"; sample "b" "Hello World"; sample "c" "x y"].

Definition plaintext : BaseExtractor World Exn Meta :=
  {| name := py "plaintext";
     ext_run := fun sample w =>
       (Ok (OcrResult.make (DocumentSample.ground_truth sample)
                           (Some 1%float) tt), w);
     ext_cleanup := fun w => w |}.

Definition flaky : BaseExtractor World Exn Meta :=
  {| name := py "flaky";
     ext_run := fun sample w =>
       if str_eq_dec (DocumentSample.id sample) (py "b")
       then (Raise (py "timeout"), w)
       else (Ok (OcrResult.make (py "cot") None tt), w);
     ext_cleanup := fun w => w |}.

Definition start : state World := {| world := 0; trace := [] |}.

Definition evaluate_method :=
  @evaluate_method World Exn Meta perf_counter ascii_unicode.

Definition run :=
  @run World Exn Meta perf_counter timestamp_now ascii_unicode.

(** The record an evaluation returned. *)
Definition method_of (r : result Exn (MethodEvaluation.t Meta) * state World)
  : MethodEvaluation.t Meta :=
  match fst r with
  | Ok m => m
  | Raise _ => MethodEvaluation.make [] [] None nan []
  end.

End Example.

(* ------------------------------------------------------------------ *)
(** ** Joining *)

(** [sep.join(parts)] *)
Fixpoint join (sep : str) (parts : list str) : str :=
  match parts with
  | [] => []
  | part :: rest =>
      match rest with
      | [] => part
      | _ => part ++ sep ++ join sep rest
      end
  end.

(* ------------------------------------------------------------------ *)
(** ** Token overlap *)

(** The [overlap] of [token_precision_recall_f1], on the two token lists:
    [sum((Counter(ref_tokens) & Counter(hyp_tokens)).values())]. *)
Definition token_overlap (ref_tokens hyp_tokens : list str) : nat :=
  counter_total (counter_and (counter_of ref_tokens) (counter_of hyp_tokens)).

(* ------------------------------------------------------------------ *)
(** ** Vocabulary of the statements about aggregation *)

(** The keys of [compute_metrics], in its order. *)
Definition metric_names : list str :=
  [ py "character_error_rate"; py "word_error_rate"; py "token_precision";
    py "token_recall"; py "token_f1"; py "exact_match" ].

(** The values the records hold for the metric [key], in order. *)
Definition metric_values {Meta} (key : str)
           (records : list (SampleEvaluation.t Meta)) : list float :=
  flat_map (fun r => match dict_get (SampleEvaluation.metrics r) key with
                     | Some v => [v]
                     | None => []
                     end)
           records.

(** What the four accumulators of [evaluate_method] hold, in terms of the
    records collected so far. *)
Definition accumulated {U : Unicode} {Meta} (acc : accumulators Meta) : Prop :=
  latencies acc
  = map (@SampleEvaluation.latency_seconds Meta) (sample_reports acc)
  /\ Forall (fun r => SampleEvaluation.metrics r
                      = compute_metrics (SampleEvaluation.ground_truth r)
                                        (SampleEvaluation.prediction r))
            (sample_reports acc)
  /\ metric_accumulator acc
     = match sample_reports acc with
       | [] => []
       | _ => map (fun k => (k, metric_values k (sample_reports acc)))
                  metric_names
       end.

(** The keys of a dict built by assigning the keys of [keys] in order: each
    key once, where it first occurs. *)
Definition first_occurrences (keys : list str) : list str :=
  fold_left (fun seen k => if in_dec str_eq_dec k seen then seen else seen ++ [k])
            keys [].

(* ------------------------------------------------------------------ *)
(** ** A run with two extractors of one name *)

Module Example2.

(** A second extractor named "plaintext", which reports no confidence. *)
Definition plaintext_again : BaseExtractor Example.World Example.Exn Example.Meta :=
  {| name := py "plaintext";
     ext_run := fun sample w =>
       (Ok (OcrResult.make (DocumentSample.ground_truth sample) None tt), w);
     ext_cleanup := fun w => w |}.

Definition run_loop :=
  @run_loop Example.World Example.Exn Example.Meta
            Example.perf_counter ascii_unicode.

(** The report a run returned. *)
Definition report_of
           (r : result Example.Exn (BenchmarkReport.t Example.Meta)
                * state Example.World)
  : BenchmarkReport.t Example.Meta :=
  match fst r with
  | Ok report => report
  | Raise _ => BenchmarkReport.make 0 [] []
  end.

(** The methods a loop over extractors returned. *)
Definition methods_of
           (r : result Example.Exn (dict (MethodEvaluation.t Example.Meta))
                * state Example.World)
  : dict (MethodEvaluation.t Example.Meta) :=
  match fst r with
  | Ok methods => methods
  | Raise _ => []
  end.

End Example2.

(* ------------------------------------------------------------------ *)
(** ** Helpers of the data loader ([data_loader.py]) *)

(** [l[:stop]]: a negative [stop] counts from the end. *)
Definition slice_to {A} (l : list A) (stop : Z) : list A :=
  let n := Z.of_nat (length l) in
  let stop := if (stop <? 0)%Z then Z.max 0 (n + stop) else Z.min stop n in
  firstn (Z.to_nat stop) l.

(** [limit_samples(samples, limit)]; [limit] is an [int] or [None]. *)
Definition limit_samples {A} (samples : list A) (limit : option Z) : list A :=
  match limit with
  | None => samples
  | Some limit =>
      if (limit >=? Z.of_nat (length samples))%Z
      then samples
      else slice_to samples limit
  end.

Inductive exception : Type :=
| ValueError (message : str).

(** The [for sample in samples] loop of [iter_batches] and what follows it:
    the batches yielded from the batch being filled, [batch], on. *)
Fixpoint batches_loop {A} (samples batch : list A) (batch_size : Z)
  : list (list A) :=
  match samples with
  | [] => match batch with [] => [] | _ => [batch] end
  | sample :: rest =>
      let batch := batch ++ [sample] in
      if (Z.of_nat (length batch) >=? batch_size)%Z
      then batch :: batches_loop rest [] batch_size
      else batches_loop rest batch batch_size
  end.

(** [list(iter_batches(samples, batch_size))]: the generator run to its end,
    which raises at its first step when [batch_size] is not positive. *)
Definition iter_batches {A} (samples : list A) (batch_size : Z)
  : result exception (list (list A)) :=
  if (batch_size <=? 0)%Z
  then Raise (ValueError (py "batch_size must be positive"))
  else Ok (batches_loop samples [] batch_size).

(* ------------------------------------------------------------------ *)
(** ** Lines of a Textract response ([models/textract.py])

    A block of the response, with the three entries [_collect_lines] reads;
    an entry that is missing is [None]. *)

Module Block.
Record t := make {
  BlockType : option str;
  Text : option str;
  Confidence : option float
}.
End Block.

(** The body of [for block in blocks] in [_collect_lines]. *)
Definition collect_block (acc : list str * list float) (block : Block.t)
  : list str * list float :=
  let (lines, confidences) := acc in
  match Block.BlockType block with
  | Some block_type =>
      if str_eq_dec block_type (py "LINE")
      then
        let text := match Block.Text block with Some t => t | None => [] end in
        match text with
        | [] => (lines, confidences)
        | _ =>
            let lines := lines ++ [text] in
            match Block.Confidence block with
            | Some conf => (lines, confidences ++ [(conf / 100)%float])
            | None => (lines, confidences)
            end
        end
      else (lines, confidences)
  | None => (lines, confidences)
  end.

(** [_collect_lines(blocks)] *)
Definition _collect_lines (blocks : list Block.t) : list str * list float :=
  fold_left collect_block blocks ([], []).

(* ================================================================== *)
(** * Properties *)

(* ------------------------------------------------------------------ *)
(** ** Edit distance *)

Section LevenshteinFacts.
Variable T : Type.
Variable T_eq_dec : forall x y : T, {x = y} + {x <> y}.

#[local] Abbreviation lev := (lev T_eq_dec).
#[local] Abbreviation lev_row := (lev_row T_eq_dec).
#[local] Abbreviation cost x y := (if T_eq_dec x y then 0 else 1) (only parsing).

Lemma lev_nil_r (a : list T) : lev a [] = length a.
Proof. destruct a; reflexivity. Qed.

Lemma lev_cons_cons (x y : T) (a b : list T) :
  lev (x :: a) (y :: b)
  = Nat.min (lev (x :: a) b + 1)
      (Nat.min (lev a (y :: b) + 1) (lev a b + cost x y)).
Proof. reflexivity. Qed.

Lemma cost_sym (x y : T) : cost x y = cost y x.
Proof. destruct (T_eq_dec x y), (T_eq_dec y x); congruence. Qed.

Lemma lev_sym (a b : list T) : lev a b = lev b a.
Proof.
  revert b; induction a as [|x a IHa]; intro b.
  - now rewrite lev_nil_r.
  - induction b as [|y b IHb].
    + reflexivity.
    + rewrite !lev_cons_cons, IHb, (IHa (y :: b)), (IHa b), (cost_sym x y).
      lia.
Qed.

Lemma nth_map_seq (f : nat -> nat) (m k : nat) :
  k < m -> nth k (map f (seq 0 m)) 0 = f k.
Proof.
  intro Hk.
  rewrite (nth_indep _ 0 (f 0)) by now rewrite length_map, length_seq.
  rewrite map_nth, seq_nth by assumption.
  reflexivity.
Qed.

Lemma firstn_length_app (done rest : list T) :
  firstn (length done) (done ++ rest) = done.
Proof. induction done as [|d done IH]; simpl; [now destruct rest | now rewrite IH]. Qed.

Lemma firstn_S_length_app (done rest : list T) (h : T) :
  firstn (S (length done)) (done ++ h :: rest) = done ++ [h].
Proof. induction done as [|d done IH]; simpl; [reflexivity | now rewrite <- IH]. Qed.

(** The inner loop completes the row of [x :: rr] from the row of [rr]. *)
Lemma inner_loop_row (x : T) (rr rest done : list T) :
  inner_loop T_eq_dec x rest (S (length done))
    (lev_row rr (done ++ rest))
    (map (fun k => lev (x :: rr) (rev (firstn k (done ++ rest))))
         (seq 0 (S (length done))))
  = lev_row (x :: rr) (done ++ rest).
Proof.
  revert done; induction rest as [|h rest IH]; intro done.
  - simpl. unfold lev_row. rewrite app_nil_r, Nat.add_1_r. reflexivity.
  - specialize (IH (done ++ [h])).
    rewrite <- app_assoc, length_app in IH; cbn [app length] in IH.
    rewrite Nat.add_1_r in IH.
    rewrite <- IH; clear IH.
    cbn [inner_loop]. f_equal.
    rewrite (seq_S (S (length done))), map_app. f_equal.
    cbn [map Nat.add]. f_equal.
    replace (S (length done) - 1) with (length done) by lia.
    unfold lev_row.
    rewrite !nth_map_seq by (rewrite ?length_app; simpl; lia).
    rewrite firstn_length_app, firstn_S_length_app, rev_app_distr.
    simpl rev. simpl app.
    rewrite lev_cons_cons. reflexivity.
Qed.

Lemma next_row_spec (x : T) (rr hyp : list T) :
  next_row T_eq_dec hyp (lev_row rr hyp) x = lev_row (x :: rr) hyp.
Proof.
  unfold next_row.
  pose proof (inner_loop_row x rr hyp []) as H.
  cbn [app length] in H. rewrite <- H; clear H.
  f_equal. unfold lev_row.
  rewrite nth_map_seq by lia. cbn [map seq firstn rev].
  rewrite lev_nil_r. cbn [lev length]. f_equal. lia.
Qed.

Lemma fold_rows (hyp reference rr : list T) :
  fold_left (next_row T_eq_dec hyp) reference (lev_row rr hyp)
  = lev_row (rev reference ++ rr) hyp.
Proof.
  revert rr; induction reference as [|x reference IH]; intro rr; simpl.
  - reflexivity.
  - rewrite next_row_spec, IH, <- app_assoc. reflexivity.
Qed.

Lemma first_row (hyp : list T) : seq 0 (length hyp + 1) = lev_row [] hyp.
Proof.
  unfold lev_row. rewrite <- (map_id (seq 0 (length hyp + 1))) at 1.
  apply map_ext_in. intros k Hk. apply in_seq in Hk. simpl.
  rewrite length_rev, length_firstn. lia.
Qed.

Lemma last_lev_row (rr hyp : list T) :
  last (lev_row rr hyp) 0 = lev rr (rev hyp).
Proof.
  unfold lev_row. rewrite Nat.add_1_r, seq_S, map_app. simpl.
  rewrite last_last, firstn_all. reflexivity.
Qed.

(** The rolling-row loop computes the recurrence on the reversed inputs. *)
Lemma rolling_rows (reference hyp : list T) :
  last (fold_left (next_row T_eq_dec hyp) reference (seq 0 (length hyp + 1))) 0
  = lev (rev reference) (rev hyp).
Proof.
  rewrite first_row, fold_rows, last_lev_row, app_nil_r. reflexivity.
Qed.

(** The indices the loops read are inside the rows: every row has one entry
    more than the hypothesis. *)
Lemma row_length (reference hyp : list T) :
  length (fold_left (next_row T_eq_dec hyp) reference (seq 0 (length hyp + 1)))
  = length hyp + 1.
Proof.
  rewrite first_row, fold_rows. unfold lev_row.
  now rewrite length_map, length_seq.
Qed.

(** C3. The edit distance does not depend on the order of its two
    arguments: for all sequences [a] and [b] over a type with decidable
    equality, [_levenshtein_distance a b = _levenshtein_distance b a]. *)
Theorem levenshtein_distance_sym (a b : list T) :
  _levenshtein_distance T_eq_dec a b = _levenshtein_distance T_eq_dec b a.
Proof.
  unfold _levenshtein_distance.
  destruct (list_eq_dec T_eq_dec a b) as [Hab|Hab],
           (list_eq_dec T_eq_dec b a) as [Hba|Hba];
    try congruence.
  destruct a as [|x a], b as [|y b]; try congruence; try reflexivity.
  rewrite !rolling_rows. apply lev_sym.
Qed.

End LevenshteinFacts.

(* ------------------------------------------------------------------ *)
(** ** Whitespace *)

Lemma sub_run_single_spaced (s : str) (b : bool) :
  single_spaced b (sub_run b s).
Proof.
  revert b; induction s as [|c s IH]; intro b; simpl; [exact I|].
  destruct (is_space c) eqn:Hc.
  - destruct b; [apply IH|].
    simpl. repeat split. apply IH.
  - simpl. rewrite Hc. apply IH.
Qed.

Lemma single_spaced_sub_run (s : str) (b : bool) :
  single_spaced b s -> sub_run b s = s.
Proof.
  revert b; induction s as [|c s IH]; intros b H; simpl in *; [reflexivity|].
  destruct (is_space c).
  - destruct H as (-> & -> & H). now rewrite (IH true H).
  - now rewrite (IH false H).
Qed.

Lemma single_spaced_lstrip (s : str) (b b' : bool) :
  single_spaced b s -> single_spaced b' (lstrip s).
Proof.
  revert b; induction s as [|c s IH]; intros b H; simpl in *; [exact I|].
  destruct (is_space c) eqn:Hc.
  - destruct H as (_ & _ & H). now apply (IH true).
  - simpl. now rewrite Hc.
Qed.

Lemma single_spaced_rstrip (s : str) (b : bool) :
  single_spaced b s -> single_spaced b (rstrip s).
Proof.
  revert b; induction s as [|c s IH]; intros b H; simpl in *; [exact I|].
  destruct (is_space c) eqn:Hc.
  - destruct H as (-> & -> & H). apply IH in H.
    destruct (rstrip s) as [|k kept]; [exact I|].
    cbn [single_spaced]. rewrite Hc. now repeat split.
  - apply IH in H.
    destruct (rstrip s) as [|k kept]; cbn [single_spaced]; rewrite Hc; auto.
Qed.

Lemma lstrip_snoc (s : str) (c : char) :
  lstrip (s ++ [c])
  = match lstrip s with
    | [] => if is_space c then [] else [c]
    | kept => kept ++ [c]
    end.
Proof.
  induction s as [|d s IH]; simpl.
  - now destruct (is_space c).
  - destruct (is_space d); [exact IH | reflexivity].
Qed.

Lemma rev_lstrip_rev (s : str) : rev (lstrip (rev s)) = rstrip s.
Proof.
  induction s as [|c s IH]; simpl; [reflexivity|].
  rewrite lstrip_snoc, <- IH.
  destruct (lstrip (rev s)) as [|k kept]; simpl.
  - now destruct (is_space c).
  - rewrite rev_app_distr. simpl.
    destruct (rev kept ++ [k]) eqn:E; [now destruct (rev kept)|reflexivity].
Qed.

Lemma strip_lstrip_rstrip (s : str) : strip s = rstrip (lstrip s).
Proof. unfold strip. apply rev_lstrip_rev. Qed.

Lemma lstrip_length (s : str) : length (lstrip s) <= length s.
Proof.
  induction s as [|c s IH]; simpl; [lia|].
  destruct (is_space c); simpl; lia.
Qed.

Lemma lstrip_head (s : str) (c : char) :
  lstrip (c :: s) = c :: s -> is_space c = false.
Proof.
  simpl. destruct (is_space c); [|reflexivity].
  intro H. pose proof (lstrip_length s) as L. rewrite H in L. simpl in L. lia.
Qed.

Lemma lstrip_idempotent (s : str) : lstrip (lstrip s) = lstrip s.
Proof.
  induction s as [|c s IH]; simpl; [reflexivity|].
  destruct (is_space c) eqn:Hc; [exact IH|]. simpl. now rewrite Hc.
Qed.

Lemma lstrip_rstrip_fixed (s : str) :
  lstrip s = s -> lstrip (rstrip s) = rstrip s.
Proof.
  destruct s as [|c s]; [reflexivity|].
  intro H. apply lstrip_head in H. simpl.
  destruct (rstrip s); rewrite ?H; simpl; now rewrite H.
Qed.

Lemma rstrip_idempotent (s : str) : rstrip (rstrip s) = rstrip s.
Proof.
  induction s as [|c s IH]; simpl; [reflexivity|].
  destruct (rstrip s) as [|k kept] eqn:E.
  - destruct (is_space c) eqn:Hc; simpl; now rewrite ?Hc.
  - change (rstrip (c :: k :: kept)) with
      (match rstrip (k :: kept) with
       | [] => if is_space c then [] else [c]
       | r => c :: r
       end).
    now rewrite IH.
Qed.

Lemma strip_idempotent (s : str) : strip (strip s) = strip s.
Proof.
  rewrite !strip_lstrip_rstrip.
  rewrite lstrip_rstrip_fixed by apply lstrip_idempotent.
  apply rstrip_idempotent.
Qed.

(** The text [normalize_text] returns has single spaces only, none of them
    at an end: substituting and stripping again changes nothing. *)
Lemma strip_sub_fixed (s : str) :
  let y := strip (whitespace_sub s) in
  whitespace_sub y = y /\ strip y = y.
Proof.
  split.
  - apply single_spaced_sub_run. rewrite strip_lstrip_rstrip.
    apply single_spaced_rstrip, (single_spaced_lstrip _ false false).
    apply sub_run_single_spaced.
  - apply strip_idempotent.
Qed.

(* ------------------------------------------------------------------ *)
(** ** Normalization *)

Section NormalizeFacts.
Context {U : Unicode}.

Lemma normalize_text_fixed (y : str) :
  nfkc y = y -> lower y = y ->
  whitespace_sub y = y -> strip y = y ->
  normalize_text y = y.
Proof.
  intros Hn Hl Hw Hs. unfold normalize_text, normalize_text_with.
  now rewrite Hn, Hl, Hw, Hs.
Qed.

Lemma normalize_text_twice (x : str) :
  nfkc (normalize_text x) = normalize_text x ->
  lower (normalize_text x) = normalize_text x ->
  normalize_text (normalize_text x) = normalize_text x.
Proof.
  intros Hn Hl. apply normalize_text_fixed; try assumption;
    apply (strip_sub_fixed (lower (nfkc x))).
Qed.

(** C4, as the code has it.  [normalize_text] is a total function: it
    returns a text for every text, the empty one included.  Normalizing a
    second time changes nothing whenever the normalized text is itself left
    unchanged by NFKC and by lowercasing, as every normalized ASCII text
    is. *)
Theorem normalize_text_idempotent (x : str) :
  nfkc (normalize_text x) = normalize_text x ->
  lower (normalize_text x) = normalize_text x ->
  normalize_text (normalize_text x) = normalize_text x.
Proof. exact (normalize_text_twice x). Qed.

End NormalizeFacts.

(** *** ASCII text *)

#[export] Instance ascii_unicode_laws : AsciiLaws ascii_unicode.
Proof. split; reflexivity. Qed.

Lemma In_sub_run (c : char) (s : str) (b : bool) :
  In c (sub_run b s) -> c = SPACE \/ In c s.
Proof.
  revert b; induction s as [|d s IH]; intros b H; simpl in *; [tauto|].
  destruct (is_space d).
  - destruct b; [|destruct H as [<-|H]; [now left|]];
      destruct (IH _ H); tauto.
  - destruct H as [<-|H]; [tauto|]. destruct (IH _ H); tauto.
Qed.

Lemma In_lstrip (c : char) (s : str) : In c (lstrip s) -> In c s.
Proof.
  induction s as [|d s IH]; simpl; [tauto|].
  destruct (is_space d); simpl; tauto.
Qed.

Lemma In_strip (c : char) (s : str) : In c (strip s) -> In c s.
Proof.
  unfold strip. intro H.
  apply In_lstrip, in_rev, In_lstrip. now apply in_rev.
Qed.

Lemma ascii_lower_ascii (c : char) :
  is_ascii c = true ->
  is_ascii (ascii_lower c) = true /\ ascii_lower (ascii_lower c) = ascii_lower c.
Proof.
  unfold is_ascii, ascii_lower. intro H. apply N.ltb_lt in H.
  destruct (65 <=? c)%N eqn:E1, (c <=? 90)%N eqn:E2; simpl; rewrite ?E1, ?E2;
    simpl; try (split; [now apply N.ltb_lt | reflexivity]).
  apply N.leb_le in E1, E2.
  replace (c + 32 <=? 90)%N with false by (symmetry; apply N.leb_gt; lia).
  rewrite andb_false_r. split; [apply N.ltb_lt; lia | reflexivity].
Qed.

Section AsciiFacts.
Context {U : Unicode} {L : AsciiLaws U}.

Lemma normalize_text_ascii (s : str) :
  forallb is_ascii s = true ->
  normalize_text s = strip (whitespace_sub (map ascii_lower s)).
Proof.
  intro H. unfold normalize_text, normalize_text_with.
  now rewrite (nfkc_ascii _ H), (lower_ascii _ H).
Qed.

Lemma normalize_text_ascii_chars (s : str) (c : char) :
  forallb is_ascii s = true -> In c (normalize_text s) ->
  is_ascii c = true /\ ascii_lower c = c.
Proof.
  intros H Hc. rewrite (normalize_text_ascii _ H) in Hc.
  apply In_strip, In_sub_run in Hc. destruct Hc as [->|Hc]; [now split|].
  apply in_map_iff in Hc. destruct Hc as (d & <- & Hd).
  apply ascii_lower_ascii. rewrite forallb_forall in H. now apply H.
Qed.

(** On ASCII text normalization is idempotent. *)
Lemma normalize_text_idempotent_ascii (s : str) :
  forallb is_ascii s = true ->
  normalize_text (normalize_text s) = normalize_text s.
Proof.
  intro H.
  assert (Ha : forallb is_ascii (normalize_text s) = true).
  { apply forallb_forall. intros c Hc.
    now destruct (normalize_text_ascii_chars _ _ H Hc). }
  apply normalize_text_twice.
  - now apply nfkc_ascii.
  - rewrite (lower_ascii _ Ha).
    rewrite <- (map_id (normalize_text s)) at 2.
    apply map_ext_in. intros c Hc.
    now destruct (normalize_text_ascii_chars _ _ H Hc).
Qed.

End AsciiFacts.

Lemma normalize_text_idempotent_witness :
  @normalize_text ascii_unicode
    (@normalize_text ascii_unicode (py "  Hello   World "))
  = @normalize_text ascii_unicode (py "  Hello   World ").
Proof.
  apply (@normalize_text_idempotent ascii_unicode (py "  Hello   World "));
    reflexivity.
Defined.

(** The composition of U+006A and U+030C breaks idempotence: what the
    runtime does on [capital_j_caron] is all the argument needs. *)
Lemma j_caron_not_idempotent (U : Unicode) :
  nfkc capital_j_caron = capital_j_caron ->
  lower capital_j_caron = [106%N; 780%N] ->
  nfkc [106%N; 780%N] = [496%N] ->
  lower [496%N] = [496%N] ->
  normalize_text (normalize_text capital_j_caron)
  <> normalize_text capital_j_caron.
Proof.
  intros H1 H2 H3 H4. unfold normalize_text, normalize_text_with.
  rewrite H1, H2.
  change (strip (whitespace_sub [106%N; 780%N])) with [106%N; 780%N].
  rewrite H3, H4. discriminate.
Qed.

(** C4 as stated fails: normalizing [J] + U+030C gives [j] + U+030C, and
    normalizing that gives the single character U+01F0. *)
Lemma normalize_text_not_idempotent :
  @normalize_text ucd_fragment (@normalize_text ucd_fragment capital_j_caron)
  <> @normalize_text ucd_fragment capital_j_caron.
Proof. apply j_caron_not_idempotent; reflexivity. Qed.

(* ------------------------------------------------------------------ *)
(** ** Metrics *)

Section MetricFacts.
Context {U : Unicode}.

Lemma character_error_rate_no_reference (reference hypothesis : str) :
  normalize_text reference = [] ->
  (normalize_text hypothesis = [] ->
   character_error_rate reference hypothesis = 0%float)
  /\ (normalize_text hypothesis <> [] ->
      character_error_rate reference hypothesis = 1%float).
Proof.
  intro Hr. unfold character_error_rate, _to_char_sequence. rewrite Hr.
  split; intro Hh.
  - now rewrite Hh.
  - now destruct (normalize_text hypothesis).
Qed.

Context {L : AsciiLaws U}.

(** Evaluates a metric on ASCII literals: the literals are normalized by
    [normalize_text_ascii], and what is left computes. *)
Ltac on_ascii_literals :=
  unfold compute_metrics, character_error_rate, word_error_rate,
    token_precision_recall_f1, exact_match, _to_word_sequence,
    _to_char_sequence;
  rewrite !normalize_text_ascii by reflexivity;
  vm_compute; try reflexivity.

(** C2. When the normalized reference has no character,
    [character_error_rate] is [0.0] if the normalized hypothesis has none
    either and [1.0] otherwise; so it is [0.0] on [("", "")] and [1.0] on
    [("", "x")]. *)
Theorem character_error_rate_empty_reference :
  (forall reference hypothesis : str,
      normalize_text reference = [] ->
      (normalize_text hypothesis = [] ->
       character_error_rate reference hypothesis = 0%float)
      /\ (normalize_text hypothesis <> [] ->
          character_error_rate reference hypothesis = 1%float))
  /\ character_error_rate (py "") (py "") = 0%float
  /\ character_error_rate (py "") (py "x") = 1%float.
Proof.
  split; [exact character_error_rate_no_reference|].
  split; on_ascii_literals.
Qed.

(** C5. For the reference "cat" and the hypothesis "cot": the character
    distance is 1 and the character error rate 1/3; the word distance is 1
    and the word error rate 1.0; no token is shared, so precision, recall
    and F1 are 0.0; the exact match is 0.0. *)
Theorem compute_metrics_cat_cot :
  _levenshtein_distance N.eq_dec
    (normalize_text (py "cat")) (normalize_text (py "cot")) = 1
  /\ _levenshtein_distance str_eq_dec
       (_to_word_sequence (py "cat")) (_to_word_sequence (py "cot")) = 1
  /\ counter_total
       (counter_and (counter_of (_to_word_sequence (py "cat")))
                    (counter_of (_to_word_sequence (py "cot")))) = 0
  /\ compute_metrics (py "cat") (py "cot")
     = [ (py "character_error_rate", (1 / 3)%float);
         (py "word_error_rate", 1%float);
         (py "token_precision", 0%float);
         (py "token_recall", 0%float);
         (py "token_f1", 0%float);
         (py "exact_match", 0%float) ].
Proof. repeat split; on_ascii_literals. Qed.

(** C10. [character_error_rate] is not bounded by 1.0: the reference "a"
    normalizes to a text that is not empty, and with the hypothesis "a b c"
    the rate is 4.0, the four insertions divided by the one character of
    the reference. *)
Theorem character_error_rate_exceeds_one :
  normalize_text (py "a") <> []
  /\ character_error_rate (py "a") (py "a b c") = 4%float
  /\ (1 <? character_error_rate (py "a") (py "a b c"))%float = true.
Proof.
  split; [|split].
  - rewrite normalize_text_ascii by reflexivity. vm_compute. discriminate.
  - on_ascii_literals.
  - on_ascii_literals.
Qed.

End MetricFacts.

Lemma character_error_rate_empty_reference_witness :
  @character_error_rate ascii_unicode (py "") (py "") = 0%float
  /\ @character_error_rate ascii_unicode (py "") (py "x") = 1%float.
Proof.
  exact (proj2 (@character_error_rate_empty_reference
                  ascii_unicode ascii_unicode_laws)).
Defined.

Lemma compute_metrics_cat_cot_witness :
  dict_get (@compute_metrics ascii_unicode (py "cat") (py "cot"))
           (py "character_error_rate")
  = Some (1 / 3)%float.
Proof.
  rewrite (proj2 (proj2 (proj2 (@compute_metrics_cat_cot
                                  ascii_unicode ascii_unicode_laws)))).
  reflexivity.
Defined.

Lemma character_error_rate_exceeds_one_witness :
  (1 <? @character_error_rate ascii_unicode (py "a") (py "a b c"))%float = true.
Proof.
  exact (proj2 (proj2 (@character_error_rate_exceeds_one
                         ascii_unicode ascii_unicode_laws))).
Defined.

(* ------------------------------------------------------------------ *)
(** ** Aggregation of confidences *)

Lemma aggregate_confidences_present (confidences : list (option float)) :
  aggregate_confidences confidences
  = match present_confidences confidences with
    | [] => None
    | present => Some (arithmetic_mean present)
    end.
Proof.
  unfold aggregate_confidences, arithmetic_mean.
  replace (flat_map (fun c : option float =>
                       match c with Some x => [x] | None => [] end)
                    confidences)
    with (present_confidences confidences);
    [now destruct (present_confidences confidences)|].
  induction confidences as [|[c|] rest IH]; simpl; now rewrite ?IH.
Qed.

Lemma present_confidences_nil (confidences : list (option float)) :
  present_confidences confidences = [] <->
  (forall c, In c confidences -> c = None).
Proof.
  induction confidences as [|[c|] rest IH]; simpl.
  - tauto.
  - split; [discriminate|]. intro H. now specialize (H (Some c) (or_introl eq_refl)).
  - rewrite IH. split; intros H c; [intros [<-|Hc]; auto|]; auto.
Qed.

(* ------------------------------------------------------------------ *)
(** ** Evaluation of one method *)

Section EvaluatorFacts.
Variables World Exn Meta : Type.
Variable perf_counter : World -> float * World.
Variable timestamp_now : World -> str * World.
Context {U : Unicode}.

#[local] Abbreviation extractor_t := (BaseExtractor World Exn Meta).
#[local] Abbreviation sample_t := (DocumentSample.t Meta).
#[local] Abbreviation state_t := (state World).
#[local] Abbreviation acc_t := (accumulators Meta).

(** Unfolds the monad of a goal or of a hypothesis. *)
Ltac unfold_monad :=
  unfold evaluate_sample, call_run, call_cleanup, bind, lift, log, ret in *;
  cbn [world trace fst snd] in *.

Lemma evaluate_sample_ok (e : extractor_t) (acc acc' : acc_t) (s : sample_t)
      (st st' : state_t) :
  evaluate_sample perf_counter e acc s st = (Ok acc', st') ->
  exists result latency,
    sample_reports acc'
    = sample_reports acc ++
      [ SampleEvaluation.make
          (DocumentSample.id s) (OcrResult.text result)
          (DocumentSample.ground_truth s)
          (compute_metrics (DocumentSample.ground_truth s)
                           (OcrResult.text result))
          (OcrResult.confidence result) latency (OcrResult.metadata result) ]
    /\ confidences acc' = confidences acc ++ [OcrResult.confidence result]
    /\ latencies acc' = latencies acc ++ [latency]
    /\ trace st'
       = trace st ++ [RunCalled (name e) (DocumentSample.id s)].
Proof.
  unfold_monad.
  destruct (perf_counter (world st)) as [t0 w1]. cbn [world trace].
  destruct (ext_run e s w1) as [[r|x] w2]; cbn [world trace]; [|discriminate].
  destruct (perf_counter w2) as [t1 w3].
  intro H; injection H as <- <-.
  exists r, (t1 - t0)%float. cbn. auto.
Qed.

Lemma evaluate_sample_succeeds (e : extractor_t) (acc : acc_t) (s : sample_t)
      (st : state_t) t0 w1 r w2 t1 w3 :
  perf_counter (world st) = (t0, w1) ->
  ext_run e s w1 = (Ok r, w2) ->
  perf_counter w2 = (t1, w3) ->
  exists acc' st',
    evaluate_sample perf_counter e acc s st = (Ok acc', st')
    /\ world st' = w3.
Proof.
  intros H0 H1 H2. unfold_monad.
  rewrite H0. cbn [world trace]. rewrite H1. cbn [world trace]. rewrite H2.
  eexists _, _. split; reflexivity.
Qed.

Lemma evaluate_sample_raises (e : extractor_t) (acc : acc_t) (s : sample_t)
      (st : state_t) t0 w1 x w2 :
  perf_counter (world st) = (t0, w1) ->
  ext_run e s w1 = (Raise x, w2) ->
  evaluate_sample perf_counter e acc s st
  = (Raise x,
     {| world := w2;
        trace := trace st ++ [RunCalled (name e) (DocumentSample.id s)] |}).
Proof.
  intros H0 H1. unfold_monad.
  rewrite H0. cbn [world trace]. rewrite H1. reflexivity.
Qed.

Lemma evaluate_loop_cons (e : extractor_t) (s : sample_t)
      (rest : list sample_t) (acc : acc_t) (st : state_t) :
  evaluate_loop perf_counter e (s :: rest) acc st
  = match evaluate_sample perf_counter e acc s st with
    | (Ok acc', st') => evaluate_loop perf_counter e rest acc' st'
    | (Raise x, st') => (Raise x, st')
    end.
Proof. reflexivity. Qed.

Lemma evaluate_loop_app (e : extractor_t) (pre post : list sample_t)
      (acc : acc_t) (st : state_t) :
  evaluate_loop perf_counter e (pre ++ post) acc st
  = match evaluate_loop perf_counter e pre acc st with
    | (Ok acc', st') => evaluate_loop perf_counter e post acc' st'
    | (Raise x, st') => (Raise x, st')
    end.
Proof.
  revert acc st; induction pre as [|s pre IH]; intros acc st.
  - reflexivity.
  - rewrite <- app_comm_cons, !evaluate_loop_cons.
    destruct (evaluate_sample perf_counter e acc s st) as [[acc1|x] st1];
      [apply IH | reflexivity].
Qed.

(** What a loop that returns has accumulated and logged. *)
Lemma evaluate_loop_ok (e : extractor_t) (samples : list sample_t)
      (acc acc' : acc_t) (st st' : state_t) :
  evaluate_loop perf_counter e samples acc st = (Ok acc', st') ->
  map (@SampleEvaluation.sample_id Meta) (sample_reports acc')
  = map (@SampleEvaluation.sample_id Meta) (sample_reports acc)
    ++ map (@DocumentSample.id Meta) samples
  /\ map (@SampleEvaluation.ground_truth Meta) (sample_reports acc')
     = map (@SampleEvaluation.ground_truth Meta) (sample_reports acc)
       ++ map (@DocumentSample.ground_truth Meta) samples
  /\ (confidences acc
      = map (@SampleEvaluation.confidence Meta) (sample_reports acc) ->
      confidences acc'
      = map (@SampleEvaluation.confidence Meta) (sample_reports acc'))
  /\ trace st' = trace st ++ run_calls e samples.
Proof.
  revert acc st; induction samples as [|s rest IH]; intros acc st H.
  - injection H as <- <-. cbn. now rewrite !app_nil_r.
  - rewrite evaluate_loop_cons in H.
    destruct (evaluate_sample perf_counter e acc s st) as [[acc1|x] st1] eqn:E;
      [|discriminate].
    apply evaluate_sample_ok in E.
    destruct E as (r & latency & Hr & Hc & _ & Ht).
    destruct (IH _ _ H) as (Hid & Hgt & Hconf & Htr).
    rewrite Hr, !map_app in Hid, Hgt. cbn in Hid, Hgt.
    rewrite <- !app_assoc in Hid, Hgt.
    repeat split; try assumption.
    + intro Hacc. apply Hconf. rewrite Hc, Hr, map_app, Hacc. reflexivity.
    + rewrite Htr, Ht, <- app_assoc. reflexivity.
Qed.

(** A loop whose extraction calls all return, returns. *)
Lemma evaluate_loop_succeeds (e : extractor_t) (samples : list sample_t)
      (acc : acc_t) (st : state_t) (w' : World) :
  extractions_succeed perf_counter e samples (world st) = Some w' ->
  exists acc' st',
    evaluate_loop perf_counter e samples acc st = (Ok acc', st')
    /\ world st' = w'.
Proof.
  revert acc st; induction samples as [|s rest IH]; intros acc st H.
  - injection H as <-. now exists acc, st.
  - cbn [extractions_succeed] in H.
    destruct (perf_counter (world st)) as [t0 w1] eqn:H0.
    destruct (ext_run e s w1) as [[r|x] w2] eqn:H1; [|discriminate].
    destruct (perf_counter w2) as [t1 w3] eqn:H2.
    destruct (evaluate_sample_succeeds e acc s st H0 H1 H2)
      as (acc1 & st1 & E & Hw).
    rewrite evaluate_loop_cons, E. apply IH. now rewrite Hw.
Qed.

Lemma evaluate_method_unfold (samples : list sample_t) (e : extractor_t)
      (st : state_t) :
  evaluate_method perf_counter samples e st
  = match evaluate_loop perf_counter e samples (no_accumulators Meta) st with
    | (Ok acc, st') =>
        (Ok (MethodEvaluation.make (name e)
               (map (fun kv => (fst kv, safe_mean (snd kv)))
                    (metric_accumulator acc))
               (aggregate_confidences (confidences acc))
               (safe_mean (latencies acc))
               (sample_reports acc)), st')
    | (Raise x, st') => (Raise x, st')
    end.
Proof. reflexivity. Qed.

(** The record of a method that was evaluated: its samples are those of the
    input, in order, and its confidences are aggregated from them. *)
Lemma evaluate_method_ok (samples : list sample_t) (e : extractor_t)
      (st st' : state_t) (m : MethodEvaluation.t Meta) :
  evaluate_method perf_counter samples e st = (Ok m, st') ->
  map (@SampleEvaluation.sample_id Meta) (MethodEvaluation.samples m)
  = map (@DocumentSample.id Meta) samples
  /\ map (@SampleEvaluation.ground_truth Meta) (MethodEvaluation.samples m)
     = map (@DocumentSample.ground_truth Meta) samples
  /\ MethodEvaluation.average_confidence m
     = aggregate_confidences
         (map (@SampleEvaluation.confidence Meta) (MethodEvaluation.samples m))
  /\ trace st' = trace st ++ run_calls e samples.
Proof.
  rewrite evaluate_method_unfold.
  destruct (evaluate_loop perf_counter e samples (no_accumulators Meta) st)
    as [[acc|x] st1] eqn:E; [|discriminate].
  intro H; injection H as <- <-.
  destruct (evaluate_loop_ok _ _ _ _ E) as (Hid & Hgt & Hconf & Htr).
  cbn in *. rewrite Hconf by reflexivity. auto.
Qed.

Lemma evaluate_method_succeeds (samples : list sample_t) (e : extractor_t)
      (st : state_t) (w' : World) :
  extractions_succeed perf_counter e samples (world st) = Some w' ->
  exists m st',
    evaluate_method perf_counter samples e st = (Ok m, st') /\ world st' = w'.
Proof.
  intro H.
  destruct (evaluate_loop_succeeds e samples (no_accumulators Meta) st H)
    as (acc & st' & E & Hw).
  rewrite evaluate_method_unfold, E. eexists _, _. split; [reflexivity|exact Hw].
Qed.

(** C1. The average confidence of an evaluated method is absent when the
    confidence of every one of its sample records is absent; otherwise it is
    the arithmetic mean (in floating point: the sum, divided by the count)
    of the confidences that are present, the absent ones being left out. *)
Theorem average_confidence_mean_of_present
        (samples : list sample_t) (e : extractor_t) (st st' : state_t)
        (m : MethodEvaluation.t Meta) :
  evaluate_method perf_counter samples e st = (Ok m, st') ->
  let given :=
    map (@SampleEvaluation.confidence Meta) (MethodEvaluation.samples m) in
  ((forall c, In c given -> c = None) ->
   MethodEvaluation.average_confidence m = None)
  /\ ((exists c, In c given /\ c <> None) ->
      MethodEvaluation.average_confidence m
      = Some (arithmetic_mean (present_confidences given))).
Proof.
  intros H given. apply evaluate_method_ok in H.
  destruct H as (_ & _ & -> & _). fold given.
  rewrite aggregate_confidences_present.
  split.
  - intro Hnone. apply present_confidences_nil in Hnone. now rewrite Hnone.
  - intros (c & Hin & Hc).
    destruct (present_confidences given) eqn:E; [|reflexivity].
    rewrite present_confidences_nil in E. now apply E in Hin.
Qed.

(** C9. With no sample, evaluating a method returns a record whose
    aggregated metrics are the empty mapping (no metric key is bound), whose
    average confidence is absent and whose average latency is NaN. *)
Theorem evaluate_method_no_samples (e : extractor_t) (st : state_t) :
  exists m,
    evaluate_method perf_counter [] e st = (Ok m, st)
    /\ MethodEvaluation.aggregated_metrics m = []
    /\ (forall key, dict_get (MethodEvaluation.aggregated_metrics m) key = None)
    /\ MethodEvaluation.average_confidence m = None
    /\ MethodEvaluation.average_latency_seconds m = nan
    /\ PrimFloat.is_nan (MethodEvaluation.average_latency_seconds m) = true
    /\ MethodEvaluation.samples m = [].
Proof. eexists. repeat split. Qed.

(* ------------------------------------------------------------------ *)
(** ** The orchestrator *)

Lemma run_loop_cons (samples : list sample_t) (e : extractor_t)
      (rest : list extractor_t) (methods : dict (MethodEvaluation.t Meta))
      (st : state_t) :
  run_loop perf_counter samples (e :: rest) methods st
  = match evaluate_method perf_counter samples e st with
    | (Ok m, st1) =>
        run_loop perf_counter samples rest (dict_set methods (name e) m)
          {| world := ext_cleanup e (world st1);
             trace := trace st1 ++ [CleanupCalled (name e)] |}
    | (Raise x, st1) => (Raise x, st1)
    end.
Proof.
  cbn [run_loop]. unfold bind at 1.
  destruct (evaluate_method perf_counter samples e st) as [[m|x] st1];
    reflexivity.
Qed.

Lemma run_loop_app (samples : list sample_t) (before after : list extractor_t)
      (methods : dict (MethodEvaluation.t Meta)) (st : state_t) :
  run_loop perf_counter samples (before ++ after) methods st
  = match run_loop perf_counter samples before methods st with
    | (Ok methods', st') => run_loop perf_counter samples after methods' st'
    | (Raise x, st') => (Raise x, st')
    end.
Proof.
  revert methods st; induction before as [|e before IH]; intros methods st.
  - reflexivity.
  - rewrite <- app_comm_cons, !run_loop_cons.
    destruct (evaluate_method perf_counter samples e st) as [[m|x] st1];
      [apply IH | reflexivity].
Qed.

Lemma run_unfold (samples : list sample_t) (extractors : list extractor_t)
      (st : state_t) :
  run perf_counter timestamp_now samples extractors st
  = match run_loop perf_counter samples extractors [] st with
    | (Ok methods, st') =>
        (Ok (BenchmarkReport.make (length samples) methods
               [(py "timestamp", fst (timestamp_now (world st')))]),
         {| world := snd (timestamp_now (world st')); trace := trace st' |})
    | (Raise x, st') => (Raise x, st')
    end.
Proof.
  unfold run, bind, lift, ret.
  destruct (run_loop perf_counter samples extractors [] st) as [[methods|x] st'];
    [|reflexivity].
  now destruct (timestamp_now (world st')).
Qed.

Lemma dict_get_set_same {V} (d : dict V) (k : str) (v : V) :
  dict_get (dict_set d k v) k = Some v.
Proof.
  induction d as [|[k' v'] d IH]; simpl.
  - now destruct (str_eq_dec k k).
  - destruct (str_eq_dec k k') as [E|E]; simpl.
    + now destruct (str_eq_dec k k).
    + now destruct (str_eq_dec k k').
Qed.

Lemma dict_get_set_bound {V} (d : dict V) (k k' : str) (v : V) :
  dict_get d k' <> None -> dict_get (dict_set d k v) k' <> None.
Proof.
  induction d as [|[k0 v0] d IH]; simpl; [congruence|].
  destruct (str_eq_dec k k0) as [->|E]; simpl;
    destruct (str_eq_dec k' k0); auto; discriminate.
Qed.

Lemma dict_set_values {V} (P : V -> Prop) (d : dict V) (k : str) (v : V) :
  Forall P (map snd d) -> P v -> Forall P (map snd (dict_set d k v)).
Proof.
  intros Hd Hv. induction d as [|[k' v'] d IH]; simpl.
  - now constructor.
  - inversion Hd; subst.
    destruct (str_eq_dec k k'); simpl; constructor; auto.
Qed.

(** What a loop over the extractors that returns has built and logged. *)
Lemma run_loop_ok (samples : list sample_t) (extractors : list extractor_t)
      (methods methods' : dict (MethodEvaluation.t Meta)) (st st' : state_t) :
  run_loop perf_counter samples extractors methods st = (Ok methods', st') ->
  (Forall (records_in_order samples) (map snd methods) ->
   Forall (records_in_order samples) (map snd methods'))
  /\ (forall k, dict_get methods k <> None \/ In k (map (@name _ _ _) extractors) ->
                dict_get methods' k <> None)
  /\ trace st' = trace st ++ calls_of_run extractors samples.
Proof.
  revert methods st; induction extractors as [|e rest IH]; intros methods st H.
  - injection H as <- <-. cbn. rewrite app_nil_r. intuition.
  - rewrite run_loop_cons in H.
    destruct (evaluate_method perf_counter samples e st) as [[m|x] st1] eqn:E;
      [|discriminate].
    apply evaluate_method_ok in E. destruct E as (Hid & Hgt & _ & Ht).
    destruct (IH _ _ H) as (Hshape & Hkeys & Htr). cbn [world trace] in Htr.
    repeat split.
    + intro Hm. apply Hshape, dict_set_values; [assumption|now split].
    + intros k [Hk|[<-|Hk]]; apply Hkeys; auto.
      * left. now apply dict_get_set_bound.
      * left. rewrite dict_get_set_same. discriminate.
    + rewrite Htr, Ht. cbn [calls_of_run flat_map].
      now rewrite <- !app_assoc.
Qed.

(** A run whose extraction calls all return, returns. *)
Lemma run_loop_succeeds (samples : list sample_t) (extractors : list extractor_t)
      (methods : dict (MethodEvaluation.t Meta)) (st : state_t) (w' : World) :
  all_extractions_succeed perf_counter extractors samples (world st) = Some w' ->
  exists methods' st',
    run_loop perf_counter samples extractors methods st = (Ok methods', st')
    /\ world st' = w'.
Proof.
  revert methods st; induction extractors as [|e rest IH]; intros methods st H.
  - injection H as <-. now exists methods, st.
  - cbn [all_extractions_succeed] in H.
    destruct (extractions_succeed perf_counter e samples (world st))
      as [w1|] eqn:E; [|discriminate].
    destruct (evaluate_method_succeeds samples e st E) as (m & st1 & Em & Hw).
    rewrite run_loop_cons, Em. apply IH. cbn [world]. now rewrite Hw.
Qed.

Lemma run_succeeds (samples : list sample_t) (extractors : list extractor_t)
      (st : state_t) (w' : World) :
  all_extractions_succeed perf_counter extractors samples (world st) = Some w' ->
  exists methods st1 st',
    run_loop perf_counter samples extractors [] st = (Ok methods, st1)
    /\ run perf_counter timestamp_now samples extractors st
       = (Ok (BenchmarkReport.make (length samples) methods
                [(py "timestamp", fst (timestamp_now (world st1)))]), st')
    /\ trace st' = trace st1.
Proof.
  intro H. destruct (run_loop_succeeds samples extractors [] st H)
    as (methods & st1 & E & _).
  exists methods, st1. rewrite run_unfold, E. eexists. split; [reflexivity|].
  split; reflexivity.
Qed.

(** C6. In a run in which every extraction call returns, a report is
    produced; its [dataset_size] is the number of input samples; every
    extractor has a record in it; and every record of the report holds
    [dataset_size] sample records, which are those of the input samples in
    the input order. *)
Theorem report_holds_every_sample
        (samples : list sample_t) (extractors : list extractor_t)
        (st : state_t) (w' : World) :
  all_extractions_succeed perf_counter extractors samples (world st) = Some w' ->
  exists report st',
    run perf_counter timestamp_now samples extractors st = (Ok report, st')
    /\ BenchmarkReport.dataset_size report = length samples
    /\ (forall e, In e extractors ->
                  dict_get (BenchmarkReport.methods report) (name e) <> None)
    /\ Forall (fun m =>
                 length (MethodEvaluation.samples m)
                 = BenchmarkReport.dataset_size report
                 /\ records_in_order samples m)
              (map snd (BenchmarkReport.methods report)).
Proof.
  intro H. destruct (run_succeeds samples extractors st H)
    as (methods & st1 & st' & Eloop & Erun & _).
  eexists _, st'. split; [exact Erun|]. cbn.
  destruct (run_loop_ok _ _ _ _ Eloop) as (Hshape & Hkeys & _).
  repeat split.
  - intros e He. apply Hkeys. right. now apply in_map.
  - specialize (Hshape (Forall_nil _)).
    eapply Forall_impl; [|exact Hshape].
    intros m Hm. split; [|exact Hm].
    destruct Hm as (Hid & _).
    now rewrite <- (length_map (@SampleEvaluation.sample_id Meta)), Hid,
      length_map.
Qed.

(** C7. When the [run] of an extractor raises on a sample, after the
    extractors before it and the samples before that one went through, the
    exception is the outcome of [evaluate_method] and of the orchestrator's
    [run]: no record is returned.  The calls logged for that extractor are
    its [run] on the samples up to the failing one, each once: no call on a
    later sample, no second call on the failing one, nothing after it. *)
Theorem extraction_failure_propagates
        (before after : list extractor_t) (e : extractor_t)
        (pre post : list sample_t) (s : sample_t)
        (st st_e st1 : state_t)
        (methods : dict (MethodEvaluation.t Meta)) (acc : acc_t)
        (t0 : float) (w1 w2 : World) (x : Exn) :
  let samples := pre ++ s :: post in
  run_loop perf_counter samples before [] st = (Ok methods, st_e) ->
  evaluate_loop perf_counter e pre (no_accumulators Meta) st_e = (Ok acc, st1) ->
  perf_counter (world st1) = (t0, w1) ->
  ext_run e s w1 = (Raise x, w2) ->
  let failed :=
    {| world := w2; trace := trace st_e ++ run_calls e (pre ++ [s]) |} in
  evaluate_method perf_counter samples e st_e = (Raise x, failed)
  /\ run perf_counter timestamp_now samples (before ++ e :: after) st
     = (Raise x, failed).
Proof.
  intros samples Hbefore Hpre Hclock Hraise failed.
  assert (E : evaluate_method perf_counter samples e st_e = (Raise x, failed)).
  { rewrite evaluate_method_unfold. unfold samples.
    rewrite evaluate_loop_app, Hpre, evaluate_loop_cons.
    rewrite (evaluate_sample_raises e acc s st1 Hclock Hraise).
    unfold failed. destruct (evaluate_loop_ok _ _ _ _ Hpre) as (_ & _ & _ & ->).
    unfold run_calls. rewrite map_app, <- app_assoc. reflexivity. }
  split; [exact E|].
  now rewrite run_unfold, run_loop_app, Hbefore, run_loop_cons, E.
Qed.

Lemma count_cleanup_in_run_calls (e : extractor_t) (samples : list sample_t)
      (n : str) :
  count_occ event_eq_dec (run_calls e samples) (CleanupCalled n) = 0.
Proof.
  induction samples as [|s samples IH]; [reflexivity|].
  unfold run_calls in *. cbn [map count_occ].
  destruct (event_eq_dec (RunCalled (name e) (DocumentSample.id s))
                         (CleanupCalled n)); [discriminate | exact IH].
Qed.

(** In the calls of a run in which nothing fails, [cleanup] of the name [n]
    occurs once for each extractor of that name. *)
Lemma count_cleanup_calls (extractors : list extractor_t)
      (samples : list sample_t) (n : str) :
  count_occ event_eq_dec (calls_of_run extractors samples) (CleanupCalled n)
  = count_occ str_eq_dec (map (@name _ _ _) extractors) n.
Proof.
  induction extractors as [|e rest IH]; [reflexivity|].
  cbn [calls_of_run flat_map map]. fold (calls_of_run rest samples).
  rewrite !count_occ_app, count_cleanup_in_run_calls, IH.
  cbn [count_occ].
  destruct (event_eq_dec (CleanupCalled (name e)) (CleanupCalled n)) as [E|E],
           (str_eq_dec (name e) n) as [E'|E']; try reflexivity.
  - now injection E.
  - now subst.
Qed.

(** The calls of a run in which every extraction call returns: for each
    extractor in turn, [run] on every sample in order and then [cleanup]. *)
Lemma successful_run_calls
        (samples : list sample_t) (extractors : list extractor_t)
        (st : state_t) (w' : World) :
  all_extractions_succeed perf_counter extractors samples (world st) = Some w' ->
  exists report st',
    run perf_counter timestamp_now samples extractors st = (Ok report, st')
    /\ trace st' = trace st ++ calls_of_run extractors samples
    /\ (forall n,
          count_occ event_eq_dec (calls_of_run extractors samples)
                    (CleanupCalled n)
          = count_occ str_eq_dec (map (@name _ _ _) extractors) n).
Proof.
  intro H. destruct (run_succeeds samples extractors st H)
    as (methods & st1 & st' & Eloop & Erun & Htr).
  eexists _, st'. split; [exact Erun|]. split.
  - rewrite Htr. now destruct (run_loop_ok _ _ _ _ Eloop) as (_ & _ & ->).
  - intro n. apply count_cleanup_calls.
Qed.

End EvaluatorFacts.

(* ------------------------------------------------------------------ *)
(** ** The small run *)

Lemma average_confidence_mean_of_present_witness :
  MethodEvaluation.average_confidence
    (Example.method_of
       (Example.evaluate_method Example.samples Example.plaintext Example.start))
  = Some (arithmetic_mean [1; 1; 1]%float).
Proof.
  refine (proj2 (@average_confidence_mean_of_present
                   Example.World Example.Exn Example.Meta
                   Example.perf_counter ascii_unicode
                   Example.samples Example.plaintext Example.start
                   (snd (Example.evaluate_method
                           Example.samples Example.plaintext Example.start))
                   _ eq_refl) _).
  exists (Some 1%float). split; [now left | discriminate].
Defined.

Lemma report_holds_every_sample_witness :
  exists report st',
    Example.run Example.samples [Example.plaintext] Example.start
    = (Ok report, st')
    /\ BenchmarkReport.dataset_size report = 3.
Proof.
  destruct (@report_holds_every_sample
              Example.World Example.Exn Example.Meta
              Example.perf_counter Example.timestamp_now ascii_unicode
              Example.samples [Example.plaintext] Example.start 6 eq_refl)
    as (report & st' & Hrun & Hsize & _).
  now exists report, st'.
Defined.

Lemma extraction_failure_propagates_witness :
  Example.run Example.samples [Example.plaintext; Example.flaky] Example.start
  = (Raise (py "timeout"),
     {| world := 9;
        trace :=
          [ RunCalled (py "plaintext") (py "a");
            RunCalled (py "plaintext") (py "b");
            RunCalled (py "plaintext") (py "c");
            CleanupCalled (py "plaintext");
            RunCalled (py "flaky") (py "a");
            RunCalled (py "flaky") (py "b") ] |}).
Proof.
  refine (proj2 (@extraction_failure_propagates
                   Example.World Example.Exn Example.Meta
                   Example.perf_counter Example.timestamp_now ascii_unicode
                   [Example.plaintext] [] Example.flaky
                   [Example.sample "a" "cat"]
                   [Example.sample "c" "x y"]
                   (Example.sample "b" "Hello World")
                   Example.start _ _ _ _ _ _ _ _
                   eq_refl eq_refl eq_refl eq_refl)).
Defined.

(** C8 as stated fails: when [run] raises on a sample the exception leaves
    the orchestrator before [cleanup] is reached, and the extractor's
    [cleanup] is not called at all. *)
Lemma cleanup_skipped_on_failure :
  fst (Example.run Example.samples [Example.flaky] Example.start)
  = Raise (py "timeout")
  /\ count_occ event_eq_dec
       (trace (snd (Example.run Example.samples [Example.flaky] Example.start)))
       (CleanupCalled (name Example.flaky))
     = 0.
Proof. split; vm_compute; reflexivity. Qed.

(* ================================================================== *)
(** * Further properties *)

(* ------------------------------------------------------------------ *)
(** ** The edit distance as a metric *)

Section LevenshteinMetric.
Variable T : Type.
Variable T_eq_dec : forall x y : T, {x = y} + {x <> y}.

#[local] Abbreviation lev := (lev T_eq_dec).
#[local] Abbreviation distance := (_levenshtein_distance T_eq_dec).
#[local] Abbreviation cost x y := (if T_eq_dec x y then 0 else 1) (only parsing).

Lemma lev_eq (x y : T) (a b : list T) :
  lev (x :: a) (y :: b)
  = Nat.min (lev (x :: a) b + 1)
      (Nat.min (lev a (y :: b) + 1) (lev a b + cost x y)).
Proof. reflexivity. Qed.

Lemma lev_nil (a : list T) : lev a [] = length a.
Proof. destruct a; reflexivity. Qed.

Lemma lev_refl (a : list T) : lev a a = 0.
Proof.
  induction a as [|x a IH]; [reflexivity|].
  rewrite lev_eq, IH. destruct (T_eq_dec x x); [lia | congruence].
Qed.

Lemma lev_lower (a b : list T) :
  length a - length b <= lev a b /\ length b - length a <= lev a b.
Proof.
  revert b; induction a as [|x a IHa]; intro b.
  - cbn. lia.
  - induction b as [|y b IHb].
    + cbn [lev length]. lia.
    + rewrite lev_eq. specialize (IHa (y :: b)) as H1. specialize (IHa b) as H2.
      cbn [length] in *. destruct (T_eq_dec x y); lia.
Qed.

Lemma lev_upper (a b : list T) : lev a b <= Nat.max (length a) (length b).
Proof.
  revert b; induction a as [|x a IHa]; intro b.
  - cbn. lia.
  - destruct b as [|y b].
    + cbn [lev length]. lia.
    + rewrite lev_eq. specialize (IHa b). cbn [length].
      destruct (T_eq_dec x y); lia.
Qed.

Lemma lev_zero (a b : list T) : lev a b = 0 -> a = b.
Proof.
  revert b; induction a as [|x a IHa]; intros b H.
  - destruct b; [reflexivity | discriminate].
  - destruct b as [|y b]; [discriminate|].
    rewrite lev_eq in H.
    destruct (T_eq_dec x y) as [->|]; [|lia].
    f_equal. apply IHa. lia.
Qed.

Lemma lev_triangle (a b c : list T) : lev a c <= lev a b + lev b c.
Proof.
  revert b c; induction a as [|x a IHa]; intros b c.
  - pose proof (lev_lower b c). cbn [lev]. lia.
  - revert c; induction b as [|y b IHb]; intro c.
    + pose proof (lev_upper (x :: a) c). rewrite lev_nil.
      change (lev [] c) with (length c). lia.
    + induction c as [|z c IHc].
      * pose proof (lev_lower (x :: a) (y :: b)). rewrite !lev_nil. lia.
      * pose proof (lev_eq x y a b) as Eab.
        pose proof (lev_eq y z b c) as Ebc.
        pose proof (lev_eq x z a c) as Eac.
        pose proof (IHa (y :: b) (z :: c)).
        pose proof (IHa b (z :: c)).
        pose proof (IHa b c).
        pose proof (IHb (z :: c)).
        pose proof (IHb c).
        destruct (T_eq_dec x y), (T_eq_dec y z), (T_eq_dec x z);
          try congruence; lia.
Qed.

(** Compares two nested minima, one bound at a time. *)
Ltac min_eq :=
  rewrite <- ?Nat.add_min_distr_r;
  apply Nat.le_antisymm; repeat apply Nat.min_glb;
  rewrite ?Nat.min_le_iff; lia.

(** The recurrence also holds at the other end of the sequences. *)
Lemma lev_snoc (x y : T) (a b : list T) :
  lev (a ++ [x]) (b ++ [y])
  = Nat.min (lev (a ++ [x]) b + 1)
      (Nat.min (lev a (b ++ [y]) + 1) (lev a b + cost x y)).
Proof.
  revert b; induction a as [|x0 a IHa]; intro b.
  - induction b as [|y0 b IHb].
    + cbn. destruct (T_eq_dec x y); reflexivity.
    + cbn [app] in *. rewrite !lev_eq, IHb.
      change (lev [] (y0 :: b ++ [y])) with (S (length (b ++ [y]))).
      change (lev [] (y0 :: b)) with (S (length b)).
      change (lev [] (b ++ [y])) with (length (b ++ [y])).
      change (lev [] b) with (length b).
      rewrite !length_app. cbn [length].
      generalize (lev [x] b) (length b). clear. intros p q.
      destruct (T_eq_dec x y), (T_eq_dec x y0); min_eq.
  - induction b as [|y0 b IHb].
    + specialize (IHa []). cbn [app] in *. rewrite !lev_eq, IHa.
      rewrite !lev_nil. cbn [length]. rewrite !length_app. cbn [length].
      generalize (lev a [y]) (length a). clear. intros p q.
      destruct (T_eq_dec x y), (T_eq_dec x0 y); min_eq.
    + pose proof (IHa (y0 :: b)) as L2. pose proof (IHa b) as L3.
      cbn [app] in *. rewrite !lev_eq, IHb, L2, L3.
      generalize (lev (x0 :: a ++ [x]) b) (lev (x0 :: a) (b ++ [y]))
        (lev (x0 :: a) b) (lev (a ++ [x]) (y0 :: b)) (lev a (y0 :: b ++ [y]))
        (lev a (y0 :: b)) (lev (a ++ [x]) b) (lev a (b ++ [y])) (lev a b).
      clear. intros.
      destruct (T_eq_dec x y), (T_eq_dec x0 y0); min_eq.
Qed.

Lemma lev_rev (a b : list T) : lev (rev a) (rev b) = lev a b.
Proof.
  revert b; induction a as [|x a IHa]; intro b.
  - cbn. apply length_rev.
  - induction b as [|y b IHb].
    + rewrite !lev_nil. apply length_rev.
    + pose proof (IHa (y :: b)) as H1. pose proof (IHa b) as H2.
      cbn [rev] in *. rewrite lev_snoc, lev_eq. congruence.
Qed.

Lemma distance_lev (a b : list T) : distance a b = lev a b.
Proof.
  unfold _levenshtein_distance.
  destruct (list_eq_dec T_eq_dec a b) as [->|Hab].
  - symmetry. apply lev_refl.
  - destruct a as [|x a], b as [|y b]; try reflexivity.
    rewrite rolling_rows. apply lev_rev.
Qed.

(** X1. [_levenshtein_distance], with its shortcuts and its rolling row,
    returns the value of the textbook recurrence: [length b] against the
    empty sequence, and otherwise the least of an insertion, a deletion and
    a substitution (free when the items are equal). *)
Theorem levenshtein_distance_recurrence (a b : list T) :
  _levenshtein_distance T_eq_dec a b = lev a b.
Proof. exact (distance_lev a b). Qed.

(** X2. The distance is zero exactly when the two sequences are equal. *)
Theorem levenshtein_distance_zero (a b : list T) :
  _levenshtein_distance T_eq_dec a b = 0 <-> a = b.
Proof.
  rewrite distance_lev. split.
  - apply lev_zero.
  - intros ->. apply lev_refl.
Qed.

(** X3. The distance is at least the difference of the two lengths and at
    most the greater of them. *)
Theorem levenshtein_distance_bounds (a b : list T) :
  length a - length b <= _levenshtein_distance T_eq_dec a b
  /\ length b - length a <= _levenshtein_distance T_eq_dec a b
  /\ _levenshtein_distance T_eq_dec a b <= Nat.max (length a) (length b).
Proof.
  rewrite distance_lev.
  destruct (lev_lower a b). auto using lev_upper.
Qed.

(** X4. The distance satisfies the triangle inequality. *)
Theorem levenshtein_distance_triangle (a b c : list T) :
  _levenshtein_distance T_eq_dec a c
  <= _levenshtein_distance T_eq_dec a b + _levenshtein_distance T_eq_dec b c.
Proof.
  rewrite !distance_lev. apply lev_triangle.
Qed.

End LevenshteinMetric.

(* ------------------------------------------------------------------ *)
(** ** Tokens *)

Lemma split_run_clean (s w : str) (t : str) :
  (forall c, In c w -> is_space c = false) ->
  In t (split_run w s) ->
  t <> [] /\ (forall c, In c t -> is_space c = false).
Proof.
  revert w; induction s as [|c s IH]; intros w Hw Ht.
  - destruct w as [|d w]; [destruct Ht|].
    destruct Ht as [<-|[]]. split; [discriminate | exact Hw].
  - cbn [split_run] in Ht. destruct (is_space c) eqn:Hc.
    + destruct w as [|d w].
      * apply (IH []); [intros ? []|exact Ht].
      * destruct Ht as [<-|Ht]; [split; [discriminate | exact Hw]|].
        apply (IH []); [intros ? []|exact Ht].
    + apply (IH (w ++ [c])); [|exact Ht].
      intros d Hd. apply in_app_or in Hd.
      destruct Hd as [Hd|[<-|[]]]; auto.
Qed.

Lemma split_run_sub_run (s w : str) (b : bool) :
  (b = true -> w = []) ->
  split_run w (sub_run b s) = split_run w s.
Proof.
  revert w b; induction s as [|c s IH]; intros w b Hb; [reflexivity|].
  cbn [sub_run split_run]. destruct (is_space c) eqn:Hc.
  - destruct b.
    + rewrite (Hb eq_refl). now apply IH.
    + cbn [split_run]. change (is_space SPACE) with true. cbn iota.
      now rewrite (IH [] true).
  - cbn [split_run]. rewrite Hc. apply IH. discriminate.
Qed.

Lemma split_run_lstrip (s : str) : split_run [] (lstrip s) = split_run [] s.
Proof.
  induction s as [|c s IH]; [reflexivity|].
  cbn [lstrip split_run]. destruct (is_space c) eqn:Hc; [exact IH|].
  cbn [split_run]. now rewrite Hc.
Qed.

Lemma split_run_rstrip (s w : str) : split_run w (rstrip s) = split_run w s.
Proof.
  revert w; induction s as [|c s IH]; intro w; [reflexivity|].
  cbn [rstrip]. destruct (rstrip s) as [|k kept].
  - destruct (is_space c) eqn:Hc; cbn [split_run]; rewrite ?Hc.
    + rewrite <- (IH []). now destruct w.
    + now rewrite <- IH.
  - cbn [split_run]. destruct (is_space c).
    + rewrite <- (IH []). reflexivity.
    + now rewrite <- IH.
Qed.

Lemma split_strip_sub (s : str) : split (strip (whitespace_sub s)) = split s.
Proof.
  unfold split. rewrite strip_lstrip_rstrip, split_run_rstrip, split_run_lstrip.
  now apply split_run_sub_run.
Qed.

Lemma rstrip_cons_fixed (c : char) (s : str) :
  rstrip (c :: s) = c :: s ->
  rstrip s = s /\ (is_space c = true -> s <> []).
Proof.
  cbn [rstrip]. destruct (rstrip s) as [|k kept] eqn:E.
  - destruct (is_space c); [discriminate|].
    intro H. injection H as <-. split; [reflexivity | discriminate].
  - intro H. injection H as <-. split; [reflexivity | discriminate].
Qed.

Lemma join_split_run (y w : str) :
  single_spaced (match w with [] => true | _ => false end) y ->
  rstrip y = y ->
  join [SPACE] (split_run w y) = w ++ y.
Proof.
  revert w; induction y as [|c y IH]; intros w Hs Hr.
  - rewrite app_nil_r. now destruct w.
  - apply rstrip_cons_fixed in Hr. destruct Hr as (Hr & Hne).
    cbn [split_run single_spaced] in *. destruct (is_space c) eqn:Hc.
    + destruct Hs as (-> & Hw & Hs).
      destruct w as [|d w]; [discriminate|].
      specialize (IH [] Hs Hr). cbn [app] in IH. cbn [join].
      destruct (split_run [] y) as [|t ts].
      * cbn in IH. subst y. now destruct (Hne eq_refl).
      * now rewrite IH.
    + rewrite (IH (w ++ [c])), <- app_assoc; [reflexivity| |exact Hr].
      now destruct w.
Qed.

Section TokenFacts.
Context {U : Unicode}.

(** X5. Every token of [_to_word_sequence] has at least one character and
    no whitespace character. *)
Theorem word_sequence_tokens_clean (text token : str) :
  In token (_to_word_sequence text) ->
  token <> [] /\ (forall c, In c token -> is_space c = false).
Proof. apply split_run_clean. intros ? []. Qed.

(** X6. The tokens are those of the NFKC-normalized, lowercased text: the
    whitespace substitution and the stripping of [normalize_text] do not
    change what [split] returns. *)
Theorem word_sequence_ignores_spacing (text : str) :
  _to_word_sequence text = split (lower (nfkc text)).
Proof. apply split_strip_sub. Qed.

Lemma join_tokens (text : str) :
  join [SPACE] (_to_word_sequence text) = normalize_text text.
Proof.
  unfold _to_word_sequence, split.
  apply (@join_split_run (normalize_text text) []).
  - unfold normalize_text, normalize_text_with. rewrite strip_lstrip_rstrip.
    apply single_spaced_rstrip, (single_spaced_lstrip _ false true).
    apply sub_run_single_spaced.
  - unfold normalize_text, normalize_text_with. rewrite strip_lstrip_rstrip.
    apply rstrip_idempotent.
Qed.

(** X7. Joining the tokens with single spaces gives the normalized text
    back: [" ".join(_to_word_sequence(text)) == normalize_text(text)]. *)
Theorem join_word_sequence (text : str) :
  join [SPACE] (_to_word_sequence text) = normalize_text text.
Proof. exact (join_tokens text). Qed.

End TokenFacts.

(* ------------------------------------------------------------------ *)
(** ** Counters and the token overlap *)

Lemma fold_add_from (l : list nat) (a : nat) :
  fold_left Nat.add l a = a + fold_left Nat.add l 0.
Proof.
  revert a; induction l as [|n l IH]; intro a; cbn; [lia|].
  rewrite (IH (a + n)), (IH n). lia.
Qed.

Lemma counter_total_cons (t : str) (n : nat) (c : Counter) :
  counter_total ((t, n) :: c) = n + counter_total c.
Proof. unfold counter_total. cbn. apply fold_add_from. Qed.

Lemma counter_total_incr (c : Counter) (t : str) :
  counter_total (counter_incr c t) = S (counter_total c).
Proof.
  induction c as [|[k n] c IH]; [reflexivity|].
  cbn [counter_incr]. destruct (str_eq_dec t k);
    rewrite !counter_total_cons; [|rewrite IH]; lia.
Qed.

Lemma counter_get_incr (c : Counter) (t t' : str) :
  counter_get (counter_incr c t) t'
  = if str_eq_dec t' t then S (counter_get c t') else counter_get c t'.
Proof.
  induction c as [|[k n] c IH]; cbn [counter_incr counter_get].
  - reflexivity.
  - destruct (str_eq_dec t k) as [->|Hk]; cbn [counter_get].
    + destruct (str_eq_dec t' k); reflexivity.
    + rewrite IH.
      destruct (str_eq_dec t' k), (str_eq_dec t' t); congruence.
Qed.

Lemma counter_keys_incr (c : Counter) (t k : str) :
  In k (map fst (counter_incr c t)) <-> k = t \/ In k (map fst c).
Proof.
  induction c as [|[k' n] c IH]; cbn [counter_incr].
  - cbn. intuition.
  - destruct (str_eq_dec t k') as [->|Hk]; cbn [map fst In].
    + intuition.
    + rewrite IH. intuition.
Qed.

Lemma counter_keys_incr_NoDup (c : Counter) (t : str) :
  NoDup (map fst c) -> NoDup (map fst (counter_incr c t)).
Proof.
  induction c as [|[k n] c IH]; intro H; cbn [counter_incr].
  - cbn. constructor; [intros []|constructor].
  - cbn [map fst] in H. inversion H as [|? ? Hk Hc]; subst.
    destruct (str_eq_dec t k) as [->|Ht]; cbn [map fst].
    + now constructor.
    + constructor; [|now apply IH].
      rewrite counter_keys_incr. intros [->|Hin]; auto.
Qed.

(** [Counter(tokens)], started from any counter [c]: the counts, the sum of
    the counts and the keys. *)
Lemma counter_fold (tokens : list str) (c : Counter) :
  (forall t, counter_get (fold_left counter_incr tokens c) t
             = counter_get c t + count_occ str_eq_dec tokens t)
  /\ counter_total (fold_left counter_incr tokens c)
     = counter_total c + length tokens
  /\ (NoDup (map fst c) ->
      NoDup (map fst (fold_left counter_incr tokens c)))
  /\ (forall k, In k (map fst (fold_left counter_incr tokens c))
                <-> In k (map fst c) \/ In k tokens).
Proof.
  revert c; induction tokens as [|x tokens IH]; intro c; cbn [fold_left].
  - cbn. split; [|split; [|split]]; intros; auto; tauto.
  - destruct (IH (counter_incr c x)) as (Hget & Htot & Hnd & Hkeys).
    split; [|split; [|split]].
    + intro t. rewrite Hget, counter_get_incr. cbn [count_occ].
      destruct (str_eq_dec t x), (str_eq_dec x t); try congruence; lia.
    + rewrite Htot, counter_total_incr. cbn [length]. lia.
    + intro H. now apply Hnd, counter_keys_incr_NoDup.
    + intro k. rewrite Hkeys, counter_keys_incr. cbn [In]. intuition.
Qed.

Lemma counter_get_entry (c : Counter) (t : str) (n : nat) :
  NoDup (map fst c) -> In (t, n) c -> counter_get c t = n.
Proof.
  induction c as [|[k m] c IH]; intros Hnd Hin; [destruct Hin|].
  cbn [map fst] in Hnd. inversion Hnd as [|? ? Hk Hc]; subst.
  cbn [counter_get]. destruct Hin as [E|Hin].
  - injection E as -> ->. now destruct (str_eq_dec t t).
  - destruct (str_eq_dec t k) as [->|]; [|now apply IH].
    destruct Hk. now apply (in_map fst) in Hin.
Qed.

Lemma list_sum_cons (n : nat) (l : list nat) : list_sum (n :: l) = n + list_sum l.
Proof. reflexivity. Qed.

Lemma counter_and_total (a b : Counter) :
  counter_total (counter_and a b)
  = list_sum (map (fun e => Nat.min (snd e) (counter_get b (fst e))) a).
Proof.
  induction a as [|[t n] a IH]; [reflexivity|].
  cbn [counter_and map fst snd]. rewrite list_sum_cons.
  destruct (0 <? Nat.min n (counter_get b t)) eqn:E.
  - now rewrite counter_total_cons, IH.
  - apply Nat.ltb_ge in E. rewrite IH. lia.
Qed.

(** The overlap is the size of the intersection of the two bags of tokens:
    over the distinct tokens of the reference, the lesser of the two
    counts. *)
Lemma token_overlap_counts (r h : list str) :
  token_overlap r h
  = list_sum
      (map (fun t => Nat.min (count_occ str_eq_dec r t) (count_occ str_eq_dec h t))
           (map fst (counter_of r))).
Proof.
  unfold token_overlap. rewrite counter_and_total, map_map.
  apply f_equal, map_ext_in. intros [t n] Hin. cbn [fst snd].
  unfold counter_of in *.
  destruct (counter_fold r []) as (Hget & _ & Hnd & _).
  destruct (counter_fold h []) as (Hget' & _).
  rewrite Hget'. cbn [counter_get Nat.add]. f_equal.
  rewrite <- (@counter_get_entry _ t n (Hnd (NoDup_nil _)) Hin), Hget.
  reflexivity.
Qed.

Lemma list_sum_Permutation (l l' : list nat) :
  Permutation l l' -> list_sum l = list_sum l'.
Proof. induction 1; rewrite ?list_sum_cons; lia. Qed.

Lemma list_sum_filter {A} (f : A -> nat) (P : A -> bool) (l : list A) :
  (forall x, In x l -> P x = false -> f x = 0) ->
  list_sum (map f l) = list_sum (map f (filter P l)).
Proof.
  induction l as [|x l IH]; intro H; [reflexivity|].
  cbn [map filter]. rewrite list_sum_cons, IH by (intros; apply H; cbn; auto).
  destruct (P x) eqn:E; [reflexivity|].
  rewrite (H x (or_introl eq_refl) E). reflexivity.
Qed.

Lemma counter_of_keys (tokens : list str) :
  NoDup (map fst (counter_of tokens))
  /\ (forall t, In t (map fst (counter_of tokens)) <-> In t tokens).
Proof.
  destruct (counter_fold tokens []) as (_ & _ & Hnd & Hkeys).
  split; [exact (Hnd (NoDup_nil _))|].
  intro t. rewrite Hkeys. cbn. tauto.
Qed.

Lemma token_overlap_sym (r h : list str) : token_overlap r h = token_overlap h r.
Proof.
  rewrite !token_overlap_counts.
  set (f := fun t => Nat.min (count_occ str_eq_dec r t) (count_occ str_eq_dec h t)).
  rewrite (list_sum_filter f (fun t => 0 <? count_occ str_eq_dec h t)).
  2:{ intros t _ E. apply Nat.ltb_ge in E. unfold f. lia. }
  rewrite (map_ext _ f (fun t => Nat.min_comm _ _)).
  rewrite (list_sum_filter f (fun t => 0 <? count_occ str_eq_dec r t)
                           (map fst (counter_of h))).
  2:{ intros t _ E. apply Nat.ltb_ge in E. unfold f. lia. }
  apply list_sum_Permutation, Permutation_map.
  destruct (counter_of_keys r) as (Hr & Kr), (counter_of_keys h) as (Hh & Kh).
  apply NoDup_Permutation; try now apply NoDup_filter.
  intro t. rewrite !filter_In, Kr, Kh, !Nat.ltb_lt.
  rewrite (count_occ_In str_eq_dec r t), (count_occ_In str_eq_dec h t).
  unfold gt. tauto.
Qed.

Lemma counter_of_total (tokens : list str) :
  counter_total (counter_of tokens) = length tokens.
Proof. unfold counter_of. now destruct (counter_fold tokens []) as (_ & -> & _). Qed.

Section PrecisionRecall.
Context {U : Unicode}.

Lemma precision_recall_unfold (reference hypothesis : str) :
  let ref_tokens := _to_word_sequence reference in
  let hyp_tokens := _to_word_sequence hypothesis in
  fst (fst (token_precision_recall_f1 reference hypothesis))
  = match length hyp_tokens with
    | 0 => 0%float
    | _ => int_div (token_overlap ref_tokens hyp_tokens) (length hyp_tokens)
    end
  /\ snd (fst (token_precision_recall_f1 reference hypothesis))
     = match length ref_tokens with
       | 0 => 0%float
       | _ => int_div (token_overlap ref_tokens hyp_tokens) (length ref_tokens)
       end.
Proof.
  intros ref_tokens hyp_tokens. unfold token_precision_recall_f1.
  fold ref_tokens hyp_tokens. cbn [fst snd].
  rewrite !counter_of_total. split; reflexivity.
Qed.

(** X8. Precision is the overlap divided by the number of hypothesis
    tokens and recall the overlap divided by the number of reference
    tokens, each 0.0 when that number is zero: the sum of the counts of a
    [Counter] is the number of tokens it was built from. *)
Theorem precision_recall_quotients (reference hypothesis : str) :
  let ref_tokens := _to_word_sequence reference in
  let hyp_tokens := _to_word_sequence hypothesis in
  fst (fst (token_precision_recall_f1 reference hypothesis))
  = match length hyp_tokens with
    | 0 => 0%float
    | _ => int_div (token_overlap ref_tokens hyp_tokens) (length hyp_tokens)
    end
  /\ snd (fst (token_precision_recall_f1 reference hypothesis))
     = match length ref_tokens with
       | 0 => 0%float
       | _ => int_div (token_overlap ref_tokens hyp_tokens) (length ref_tokens)
       end.
Proof. exact (precision_recall_unfold reference hypothesis). Qed.

(** X10. When reference and hypothesis change places, precision and recall
    change places. *)
Theorem precision_recall_swap (a b : str) :
  fst (fst (token_precision_recall_f1 a b))
  = snd (fst (token_precision_recall_f1 b a))
  /\ snd (fst (token_precision_recall_f1 a b))
     = fst (fst (token_precision_recall_f1 b a)).
Proof.
  destruct (precision_recall_unfold a b) as (-> & ->).
  destruct (precision_recall_unfold b a) as (-> & ->).
  now rewrite (token_overlap_sym (_to_word_sequence b)).
Qed.

End PrecisionRecall.

(** X9. The overlap is at most the number of reference tokens and at most
    the number of hypothesis tokens. *)
Theorem token_overlap_bounds (ref_tokens hyp_tokens : list str) :
  token_overlap ref_tokens hyp_tokens <= length ref_tokens
  /\ token_overlap ref_tokens hyp_tokens <= length hyp_tokens.
Proof.
  assert (B : forall r h, token_overlap r h <= length r).
  { intros r h. rewrite <- (counter_of_total r).
    unfold token_overlap. rewrite counter_and_total.
    induction (counter_of r) as [|[t n] c IH]; [cbn; lia|].
    rewrite counter_total_cons. cbn [map fst snd]. rewrite list_sum_cons. lia. }
  split; [apply B | rewrite token_overlap_sym; apply B].
Qed.

(** X11. The overlap is zero exactly when no token of the reference occurs
    in the hypothesis. *)
Theorem token_overlap_zero (ref_tokens hyp_tokens : list str) :
  token_overlap ref_tokens hyp_tokens = 0
  <-> (forall t, In t ref_tokens -> ~ In t hyp_tokens).
Proof.
  rewrite token_overlap_counts.
  destruct (counter_of_keys ref_tokens) as (_ & Keys).
  set (keys := map fst (counter_of ref_tokens)) in *.
  assert (Z : forall l : list nat, list_sum l = 0 <-> (forall n, In n l -> n = 0)).
  { induction l as [|n l IH]; [cbn; intuition|].
    rewrite list_sum_cons. cbn [In]. split.
    - intros H m [<-|Hm]; [lia|]. apply IH; [lia|exact Hm].
    - intro H. rewrite (H n (or_introl eq_refl)). apply IH. auto. }
  rewrite Z. split.
  - intros H t Hr Hh.
    specialize (H _ (in_map _ _ _ (proj2 (Keys t) Hr))). cbn beta in H.
    apply (count_occ_In str_eq_dec) in Hr, Hh. lia.
  - intros H n Hn. apply in_map_iff in Hn. destruct Hn as (t & <- & Ht).
    apply Keys in Ht. specialize (H t Ht).
    apply (count_occ_not_In str_eq_dec) in H. lia.
Qed.

(** X12. The overlap does not depend on the order of the tokens. *)
Theorem token_overlap_Permutation (r r' h h' : list str) :
  Permutation r r' -> Permutation h h' ->
  token_overlap r h = token_overlap r' h'.
Proof.
  assert (P : forall a a' b, Permutation a a' ->
                             token_overlap a b = token_overlap a' b).
  { intros a a' b Ha. rewrite !token_overlap_counts.
    destruct (counter_of_keys a) as (Na & Ka), (counter_of_keys a') as (Na' & Ka').
    rewrite (map_ext_in _
               (fun t => Nat.min (count_occ str_eq_dec a' t)
                                 (count_occ str_eq_dec b t))).
    2:{ intros t _. f_equal.
        now apply (proj1 (Permutation_count_occ str_eq_dec a a')). }
    apply list_sum_Permutation, Permutation_map, NoDup_Permutation; auto.
    intro t. rewrite Ka, Ka'. split; apply Permutation_in;
      [exact Ha | now apply Permutation_sym]. }
  intros Hr Hh. rewrite (P r r' h Hr).
  rewrite (token_overlap_sym r' h), (P h h' r' Hh). apply token_overlap_sym.
Qed.

(* ------------------------------------------------------------------ *)
(** ** Exact match and the distances *)

Section ExactMatch.
Context {U : Unicode}.

Lemma float_one_not_zero : 1%float <> 0%float.
Proof.
  intro H. apply (f_equal PrimFloat.is_zero) in H. vm_compute in H. discriminate.
Qed.

(** X13. [exact_match] is 1.0 when the two normalized texts are equal and
    0.0 otherwise; it is 1.0 exactly when the character distance of
    [character_error_rate] is zero, and exactly when the word distance of
    [word_error_rate] is zero. *)
Theorem exact_match_distances (reference hypothesis : str) :
  (exact_match reference hypothesis = 1%float
   \/ exact_match reference hypothesis = 0%float)
  /\ (exact_match reference hypothesis = 1%float
      <-> normalize_text reference = normalize_text hypothesis)
  /\ (exact_match reference hypothesis = 1%float
      <-> _levenshtein_distance N.eq_dec
            (_to_char_sequence (normalize_text reference))
            (_to_char_sequence (normalize_text hypothesis)) = 0)
  /\ (exact_match reference hypothesis = 1%float
      <-> _levenshtein_distance str_eq_dec
            (_to_word_sequence reference) (_to_word_sequence hypothesis) = 0).
Proof.
  assert (E : exact_match reference hypothesis = 1%float
              <-> normalize_text reference = normalize_text hypothesis).
  { unfold exact_match.
    destruct (str_eq_dec (normalize_text reference) (normalize_text hypothesis));
      split; auto; intro H; [symmetry in H|]; now destruct float_one_not_zero. }
  split; [|split; [exact E|split]].
  - unfold exact_match. destruct (str_eq_dec _ _); auto.
  - rewrite E, distance_lev. unfold _to_char_sequence. split.
    + intros ->. apply lev_refl.
    + apply lev_zero.
  - rewrite E, distance_lev. split.
    + intro H. unfold _to_word_sequence. rewrite H. apply lev_refl.
    + intro H. apply lev_zero in H.
      now rewrite <- (join_tokens reference), <- (join_tokens hypothesis), H.
Qed.

End ExactMatch.

(* ------------------------------------------------------------------ *)
(** ** The records and the aggregates of a method *)

(** Appending the six metrics of one sample to the accumulator, which is
    empty before the first sample and holds the six lists afterwards. *)
Lemma accumulate_metrics (v1 v2 v3 v4 v5 v6 : float) (L : str -> list float)
      (first : bool) :
  let metrics :=
    [ (py "character_error_rate", v1); (py "word_error_rate", v2);
      (py "token_precision", v3); (py "token_recall", v4);
      (py "token_f1", v5); (py "exact_match", v6) ] in
  fold_left (fun d kv => dict_append d (fst kv) (snd kv)) metrics
            (if first then [] else map (fun k => (k, L k)) metric_names)
  = map (fun k => (k, (if first then [] else L k)
                      ++ match dict_get metrics k with
                         | Some v => [v]
                         | None => []
                         end))
        metric_names.
Proof. destruct first; vm_compute; reflexivity. Qed.

Section MethodFacts.
Variables World Exn Meta : Type.
Variable perf_counter : World -> float * World.
Variable timestamp_now : World -> str * World.
Context {U : Unicode}.

#[local] Abbreviation extractor_t := (BaseExtractor World Exn Meta).
#[local] Abbreviation sample_t := (DocumentSample.t Meta).
#[local] Abbreviation state_t := (state World).
#[local] Abbreviation acc_t := (accumulators Meta).

(** The accumulators after one more sample. *)
Lemma evaluate_sample_step (e : extractor_t) (acc acc' : acc_t) (s : sample_t)
      (st st' : state_t) :
  evaluate_sample perf_counter e acc s st = (Ok acc', st') ->
  exists result latency,
    let metrics :=
      compute_metrics (DocumentSample.ground_truth s) (OcrResult.text result) in
    acc'
    = {| sample_reports :=
           sample_reports acc ++
           [ SampleEvaluation.make
               (DocumentSample.id s) (OcrResult.text result)
               (DocumentSample.ground_truth s) metrics
               (OcrResult.confidence result) latency
               (OcrResult.metadata result) ];
         metric_accumulator :=
           fold_left (fun d kv => dict_append d (fst kv) (snd kv))
                     metrics (metric_accumulator acc);
         confidences := confidences acc ++ [OcrResult.confidence result];
         latencies := latencies acc ++ [latency] |}.
Proof.
  unfold evaluate_sample, call_run, bind, lift, log, ret.
  cbn [world trace].
  destruct (perf_counter (world st)) as [t0 w1]. cbn [world trace].
  destruct (ext_run e s w1) as [[r|x] w2]; cbn [world trace]; [|discriminate].
  destruct (perf_counter w2) as [t1 w3].
  intro H; injection H as <- <-.
  now exists r, (t1 - t0)%float.
Qed.

Lemma evaluate_loop_invariant (I : acc_t -> Prop) (e : extractor_t) :
  (forall acc acc' s st st',
      I acc -> evaluate_sample perf_counter e acc s st = (Ok acc', st') ->
      I acc') ->
  forall samples acc acc' st st',
    I acc -> evaluate_loop perf_counter e samples acc st = (Ok acc', st') ->
    I acc'.
Proof.
  intros Hstep samples; induction samples as [|s rest IH];
    intros acc acc' st st' Hacc H.
  - injection H as <- <-. exact Hacc.
  - rewrite evaluate_loop_cons in H.
    destruct (evaluate_sample perf_counter e acc s st) as [[acc1|x] st1] eqn:E;
      [|discriminate].
    exact (IH _ _ _ _ (Hstep _ _ _ _ _ Hacc E) H).
Qed.

Lemma accumulated_step (e : extractor_t) (acc acc' : acc_t) (s : sample_t)
      (st st' : state_t) :
  accumulated acc ->
  evaluate_sample perf_counter e acc s st = (Ok acc', st') ->
  accumulated acc'.
Proof.
  intros (Hlat & Hmet & Hacc) H.
  apply evaluate_sample_step in H. destruct H as (r & latency & ->).
  cbn zeta. unfold accumulated. cbn [sample_reports latencies metric_accumulator].
  split; [|split].
  - rewrite map_app, Hlat. reflexivity.
  - apply Forall_app. split; [exact Hmet|]. now constructor.
  - rewrite Hacc. clear Hacc Hlat Hmet.
    set (R := sample_reports acc).
    set (g := DocumentSample.ground_truth s). set (t := OcrResult.text r).
    set (n := SampleEvaluation.make _ _ _ _ _ _ _).
    assert (Hn : SampleEvaluation.metrics n = compute_metrics g t) by reflexivity.
    assert (Hv : forall k, metric_values k (R ++ [n])
                           = metric_values k R
                             ++ match dict_get (compute_metrics g t) k with
                                | Some v => [v]
                                | None => []
                                end).
    { intro k. unfold metric_values. rewrite flat_map_app. cbn [flat_map].
      now rewrite Hn, app_nil_r. }
    replace (match R ++ [n] with
             | [] => []
             | _ => map (fun k => (k, metric_values k (R ++ [n]))) metric_names
             end)
      with (map (fun k => (k, metric_values k (R ++ [n]))) metric_names)
      by now destruct R.
    rewrite (map_ext _ _ (fun k => f_equal (pair k) (Hv k))).
    clearbody n. clear Hv Hn.
    unfold compute_metrics.
    destruct (token_precision_recall_f1 g t) as [[p rc] f1].
    generalize (character_error_rate g t) (word_error_rate g t)
               (exact_match g t).
    intros v1 v2 v6.
    destruct R as [|r0 R'].
    + exact (accumulate_metrics v1 v2 p rc f1 v6 (fun _ => []) true).
    + exact (accumulate_metrics v1 v2 p rc f1 v6
               (fun k => metric_values k (r0 :: R')) false).
Qed.

Lemma evaluate_method_accumulated (samples : list sample_t) (e : extractor_t)
      (st st' : state_t) (m : MethodEvaluation.t Meta) :
  evaluate_method perf_counter samples e st = (Ok m, st') ->
  exists acc,
    accumulated acc
    /\ m = MethodEvaluation.make (name e)
             (map (fun kv => (fst kv, safe_mean (snd kv)))
                  (metric_accumulator acc))
             (aggregate_confidences (confidences acc))
             (safe_mean (latencies acc))
             (sample_reports acc).
Proof.
  rewrite evaluate_method_unfold.
  destruct (evaluate_loop perf_counter e samples (no_accumulators Meta) st)
    as [[acc|x] st1] eqn:E; [|discriminate].
  intro H; injection H as <- <-. exists acc. split; [|reflexivity].
  eapply (@evaluate_loop_invariant accumulated e); [| |exact E].
  - intros; eapply accumulated_step; eassumption.
  - repeat split. constructor.
Qed.

(** X14. Every sample record of an evaluated method holds the metrics of
    its own ground truth and prediction. *)
Theorem sample_records_metrics
        (samples : list sample_t) (e : extractor_t) (st st' : state_t)
        (m : MethodEvaluation.t Meta) :
  evaluate_method perf_counter samples e st = (Ok m, st') ->
  Forall (fun r => SampleEvaluation.metrics r
                   = compute_metrics (SampleEvaluation.ground_truth r)
                                     (SampleEvaluation.prediction r))
         (MethodEvaluation.samples m).
Proof.
  intro H. apply evaluate_method_accumulated in H.
  destruct H as (acc & (_ & Hmet & _) & ->). exact Hmet.
Qed.

(** X15. When there is at least one sample, the aggregated metrics of an
    evaluated method are the six metrics of [compute_metrics], in its
    order, each with the [safe_mean] of the values the records hold for
    it. *)
Theorem aggregated_metrics_means
        (samples : list sample_t) (e : extractor_t) (st st' : state_t)
        (m : MethodEvaluation.t Meta) :
  evaluate_method perf_counter samples e st = (Ok m, st') ->
  samples <> [] ->
  MethodEvaluation.aggregated_metrics m
  = map (fun k => (k, safe_mean (metric_values k (MethodEvaluation.samples m))))
        metric_names.
Proof.
  intros H Hne. pose proof (evaluate_method_ok _ _ _ _ H) as (Hid & _).
  apply evaluate_method_accumulated in H.
  destruct H as (acc & (_ & _ & Hacc) & ->).
  cbn [MethodEvaluation.aggregated_metrics MethodEvaluation.samples] in *.
  rewrite Hacc. destruct (sample_reports acc) as [|r0 R].
  - destruct samples; [congruence | discriminate].
  - now rewrite map_map.
Qed.

(** X16. The average latency of an evaluated method is the [safe_mean] of
    the latencies of its sample records, and its name is the name of the
    extractor. *)
Theorem average_latency_mean
        (samples : list sample_t) (e : extractor_t) (st st' : state_t)
        (m : MethodEvaluation.t Meta) :
  evaluate_method perf_counter samples e st = (Ok m, st') ->
  MethodEvaluation.average_latency_seconds m
  = safe_mean (map (@SampleEvaluation.latency_seconds Meta)
                   (MethodEvaluation.samples m))
  /\ MethodEvaluation.method_name m = name e.
Proof.
  intro H. apply evaluate_method_accumulated in H.
  destruct H as (acc & (Hlat & _) & ->). cbn. now rewrite Hlat.
Qed.

End MethodFacts.

(* ------------------------------------------------------------------ *)
(** ** The methods of a report *)

Lemma dict_get_set_other {V} (d : dict V) (k k' : str) (v : V) :
  k' <> k -> dict_get (dict_set d k v) k' = dict_get d k'.
Proof.
  intro Hk. induction d as [|[k0 v0] d IH]; cbn [dict_set dict_get].
  - now destruct (str_eq_dec k' k).
  - destruct (str_eq_dec k k0) as [->|E]; cbn [dict_get].
    + now destruct (str_eq_dec k' k0).
    + destruct (str_eq_dec k' k0); [reflexivity | exact IH].
Qed.

Lemma dict_set_keys {V} (d : dict V) (k : str) (v : V) :
  map fst (dict_set d k v)
  = if in_dec str_eq_dec k (map fst d) then map fst d else map fst d ++ [k].
Proof.
  induction d as [|[k0 v0] d IH]; cbn [dict_set map fst]; [reflexivity|].
  destruct (str_eq_dec k k0) as [->|E]; cbn [map fst].
  - destruct (in_dec str_eq_dec k0 (k0 :: map fst d)) as [|N];
      [reflexivity | destruct N; now left].
  - rewrite IH.
    destruct (in_dec str_eq_dec k (map fst d)) as [I|N],
             (in_dec str_eq_dec k (k0 :: map fst d)) as [I'|N'];
      try reflexivity.
    + destruct N'. now right.
    + destruct I' as [->|I']; [congruence | contradiction].
Qed.

Lemma first_occurrences_from (keys seen : list str) :
  NoDup seen ->
  let result :=
    fold_left (fun seen k => if in_dec str_eq_dec k seen then seen
                             else seen ++ [k]) keys seen in
  NoDup result /\ (forall k, In k result <-> In k seen \/ In k keys).
Proof.
  revert seen; induction keys as [|x keys IH]; intros seen Hnd; cbn [fold_left].
  - cbn. split; [exact Hnd | tauto].
  - destruct (in_dec str_eq_dec x seen) as [I|N].
    + destruct (IH seen Hnd) as (H1 & H2). split; [exact H1|].
      intro k. rewrite H2. cbn [In]. intuition (subst; auto).
    + assert (Hnd' : NoDup (seen ++ [x])).
      { apply NoDup_app; [exact Hnd | constructor; [intros []|constructor] |].
        intros k Hk [<-|[]]. contradiction. }
      destruct (IH _ Hnd') as (H1 & H2). split; [exact H1|].
      intro k. rewrite H2, in_app_iff. cbn [In]. intuition.
Qed.

Section RunFacts.
Variables World Exn Meta : Type.
Variable perf_counter : World -> float * World.
Variable timestamp_now : World -> str * World.
Context {U : Unicode}.

#[local] Abbreviation extractor_t := (BaseExtractor World Exn Meta).
#[local] Abbreviation sample_t := (DocumentSample.t Meta).
#[local] Abbreviation state_t := (state World).
#[local] Abbreviation methods_t := (dict (MethodEvaluation.t Meta)).

Lemma run_loop_keys (samples : list sample_t) (extractors : list extractor_t)
      (methods methods' : methods_t) (st st' : state_t) :
  run_loop perf_counter samples extractors methods st = (Ok methods', st') ->
  map fst methods'
  = fold_left (fun seen k => if in_dec str_eq_dec k seen then seen
                             else seen ++ [k])
              (map (@name _ _ _) extractors) (map fst methods).
Proof.
  revert methods st; induction extractors as [|e rest IH]; intros methods st H.
  - now injection H as <- <-.
  - rewrite run_loop_cons in H.
    destruct (evaluate_method perf_counter samples e st) as [[m|x] st1];
      [|discriminate].
    rewrite (IH _ _ H), dict_set_keys. reflexivity.
Qed.

Lemma run_loop_keeps (samples : list sample_t) (extractors : list extractor_t)
      (methods methods' : methods_t) (st st' : state_t) (k : str) :
  run_loop perf_counter samples extractors methods st = (Ok methods', st') ->
  (forall e, In e extractors -> name e <> k) ->
  dict_get methods' k = dict_get methods k.
Proof.
  revert methods st; induction extractors as [|e rest IH]; intros methods st H Hk.
  - now injection H as <- <-.
  - rewrite run_loop_cons in H.
    destruct (evaluate_method perf_counter samples e st) as [[m|x] st1];
      [|discriminate].
    rewrite (IH _ _ H) by (intros; apply Hk; now right).
    apply dict_get_set_other. intros ->. now apply (Hk e (or_introl eq_refl)).
Qed.

Lemma run_ok_loop (samples : list sample_t) (extractors : list extractor_t)
      (st st' : state_t) (report : BenchmarkReport.t Meta) :
  run perf_counter timestamp_now samples extractors st = (Ok report, st') ->
  exists st1,
    run_loop perf_counter samples extractors [] st
    = (Ok (BenchmarkReport.methods report), st1).
Proof.
  rewrite run_unfold.
  destruct (run_loop perf_counter samples extractors [] st)
    as [[methods|x] st1]; [|discriminate].
  intro H; injection H as <- <-. now exists st1.
Qed.

(** X17. The report of a run has one method per distinct extractor name, in
    the order in which the names first occur among the extractors. *)
Theorem report_methods_keys
        (samples : list sample_t) (extractors : list extractor_t)
        (st st' : state_t) (report : BenchmarkReport.t Meta) :
  run perf_counter timestamp_now samples extractors st = (Ok report, st') ->
  let keys := map fst (BenchmarkReport.methods report) in
  keys = first_occurrences (map (@name _ _ _) extractors)
  /\ NoDup keys
  /\ (forall k, In k keys <-> In k (map (@name _ _ _) extractors)).
Proof.
  intros H keys. destruct (run_ok_loop _ _ _ H) as (st1 & Hloop).
  apply run_loop_keys in Hloop. cbn [map] in Hloop. fold keys in Hloop.
  split; [exact Hloop|]. rewrite Hloop.
  destruct (first_occurrences_from (map (@name _ _ _) extractors)
                                   (NoDup_nil _)) as (H1 & H2).
  split; [exact H1|]. intro k. rewrite (H2 k). cbn [In]. tauto.
Qed.

(** X18. When several extractors have the same name, the report holds the
    evaluation of the last of them: the record an extractor produced is in
    the report under its name when no later extractor has that name. *)
Theorem last_extractor_of_a_name
        (samples : list sample_t) (before after : list extractor_t)
        (e : extractor_t) (st st_e st_m st' : state_t)
        (methods : methods_t) (m : MethodEvaluation.t Meta)
        (report : BenchmarkReport.t Meta) :
  run_loop perf_counter samples before [] st = (Ok methods, st_e) ->
  evaluate_method perf_counter samples e st_e = (Ok m, st_m) ->
  (forall e', In e' after -> name e' <> name e) ->
  run perf_counter timestamp_now samples (before ++ e :: after) st
  = (Ok report, st') ->
  dict_get (BenchmarkReport.methods report) (name e) = Some m.
Proof.
  intros Hbefore Hm Hafter H.
  destruct (run_ok_loop _ _ _ H) as (st1 & Hloop).
  rewrite run_loop_app, Hbefore, run_loop_cons, Hm in Hloop.
  rewrite (run_loop_keeps _ _ _ _ Hloop Hafter).
  apply dict_get_set_same.
Qed.

Lemma evaluate_loop_fails (e : extractor_t) (samples : list sample_t)
      (acc : accumulators Meta) (st : state_t) :
  extractions_succeed perf_counter e samples (world st) = None ->
  exists x st', evaluate_loop perf_counter e samples acc st = (Raise x, st').
Proof.
  revert acc st; induction samples as [|s rest IH]; intros acc st H;
    [discriminate|].
  cbn [extractions_succeed] in H. rewrite evaluate_loop_cons.
  destruct (perf_counter (world st)) as [t0 w1] eqn:H0.
  destruct (ext_run e s w1) as [[r|x] w2] eqn:H1.
  - destruct (perf_counter w2) as [t1 w3] eqn:H2.
    destruct (evaluate_sample_succeeds perf_counter e acc s st H0 H1 H2)
      as (acc1 & st1 & -> & Hw).
    apply IH. now rewrite Hw.
  - rewrite (evaluate_sample_raises perf_counter e acc s st H0 H1). eauto.
Qed.

Lemma run_loop_fails (samples : list sample_t) (extractors : list extractor_t)
      (methods : methods_t) (st : state_t) :
  all_extractions_succeed perf_counter extractors samples (world st) = None ->
  exists x st',
    run_loop perf_counter samples extractors methods st = (Raise x, st').
Proof.
  revert methods st; induction extractors as [|e rest IH]; intros methods st H;
    [discriminate|].
  cbn [all_extractions_succeed] in H. rewrite run_loop_cons.
  destruct (extractions_succeed perf_counter e samples (world st))
    as [w1|] eqn:E.
  - destruct (evaluate_method_succeeds perf_counter samples e st E)
      as (m & st1 & -> & Hw).
    apply IH. cbn [world]. now rewrite Hw.
  - destruct (evaluate_loop_fails e samples (no_accumulators Meta) st E)
      as (x & st1 & Hx).
    rewrite evaluate_method_unfold, Hx. eauto.
Qed.

(** X19. A run returns a report exactly when every extraction call it makes
    returns; when one raises, the run raises and there is no report, not
    even for the extractors evaluated before. *)
Theorem run_returns_iff
        (samples : list sample_t) (extractors : list extractor_t)
        (st : state_t) :
  ((exists report st',
       run perf_counter timestamp_now samples extractors st = (Ok report, st'))
   <-> (exists w',
          all_extractions_succeed perf_counter extractors samples (world st)
          = Some w'))
  /\ (all_extractions_succeed perf_counter extractors samples (world st) = None
      -> exists x st',
        run perf_counter timestamp_now samples extractors st = (Raise x, st')).
Proof.
  assert (F : all_extractions_succeed perf_counter extractors samples (world st)
              = None ->
              exists x st',
                run perf_counter timestamp_now samples extractors st
                = (Raise x, st')).
  { intro H. destruct (run_loop_fails samples extractors [] st H)
      as (x & st1 & Hx).
    exists x, st1. now rewrite run_unfold, Hx. }
  split; [split|exact F].
  - intros (report & st' & H).
    destruct (all_extractions_succeed perf_counter extractors samples (world st))
      as [w'|]; [now exists w'|].
    destruct (F eq_refl) as (x & st1 & Hx). congruence.
  - intros (w' & H).
    destruct (run_succeeds perf_counter timestamp_now samples extractors st H)
      as (methods & st1 & st' & _ & Hrun & _).
    eauto.
Qed.

End RunFacts.

(* ------------------------------------------------------------------ *)
(** ** The helpers of the data loader *)

(** X20. With a limit that is not negative, [limit_samples] returns the
    first [limit] samples, all of them when there are no more than
    [limit]: a prefix of the input, in order, of length
    [min(limit, len(samples))]. *)
Theorem limit_samples_prefix {A} (samples : list A) (limit : Z) :
  (0 <= limit)%Z ->
  limit_samples samples (Some limit) = firstn (Z.to_nat limit) samples
  /\ length (limit_samples samples (Some limit))
     = Nat.min (Z.to_nat limit) (length samples).
Proof.
  intro H.
  assert (E : limit_samples samples (Some limit)
              = firstn (Z.to_nat limit) samples).
  { unfold limit_samples, slice_to.
    destruct (limit >=? Z.of_nat (length samples))%Z eqn:G.
    - symmetry. apply firstn_all2. lia.
    - destruct (limit <? 0)%Z eqn:N; [exfalso; lia|]. f_equal. lia. }
  split; [exact E|]. rewrite E. apply length_firstn.
Qed.

Lemma limit_samples_prefix_witness :
  limit_samples [10; 20; 30] (Some 2%Z) = [10; 20].
Proof.
  exact (proj1 (@limit_samples_prefix nat [10; 20; 30] 2%Z
                  ltac:(discriminate))).
Defined.

(** X21. With a negative limit, [limit_samples] returns the samples but the
    last [-limit] of them (none when there are no more than [-limit]): the
    result can hold samples although the limit is below zero. *)
Theorem limit_samples_negative {A} (samples : list A) (limit : Z) :
  (limit < 0)%Z ->
  limit_samples samples (Some limit)
  = firstn (length samples - Z.to_nat (- limit)) samples.
Proof.
  intro H. unfold limit_samples, slice_to.
  destruct (limit >=? Z.of_nat (length samples))%Z eqn:G;
    [apply Z.geb_le in G; exfalso; lia|].
  destruct (limit <? 0)%Z eqn:N; [|exfalso; lia]. f_equal. lia.
Qed.

Lemma limit_samples_negative_witness :
  limit_samples [10; 20; 30] (Some (-1)%Z) = [10; 20].
Proof.
  exact (@limit_samples_negative nat [10; 20; 30] (-1)%Z eq_refl).
Defined.

Lemma batches_loop_spec {A} (samples batch : list A) (n : Z) :
  (0 < n)%Z -> (Z.of_nat (length batch) < n)%Z ->
  let batches := batches_loop samples batch n in
  concat batches = batch ++ samples
  /\ Forall (fun b => b <> [] /\ (Z.of_nat (length b) <= n)%Z) batches
  /\ Forall (fun b => Z.of_nat (length b) = n) (removelast batches).
Proof.
  intro Hn. revert batch; induction samples as [|s rest IH]; intros batch Hb.
  - cbn [batches_loop]. destruct batch as [|b batch].
    + cbn. auto.
    + cbn [concat removelast]. rewrite !app_nil_r.
      repeat split; [|constructor].
      constructor; [|constructor]. split; [discriminate | lia].
  - cbn [batches_loop].
    assert (L : length (batch ++ [s]) = S (length batch))
      by (rewrite length_app; cbn; lia).
    destruct (Z.of_nat (length (batch ++ [s])) >=? n)%Z eqn:G.
    + destruct (IH [] ltac:(cbn; lia)) as (Hc & Hs & Hf).
      cbn zeta in *. cbn [concat]. rewrite Hc, <- app_assoc.
      split; [reflexivity|]. split.
      * constructor; [|exact Hs]. split; [now destruct batch | lia].
      * cbn [removelast].
        destruct (batches_loop rest [] n) as [|b bs]; [constructor|].
        constructor; [lia | exact Hf].
    + destruct (IH (batch ++ [s]) ltac:(lia)) as (Hc & Hs & Hf).
      cbn zeta in *. rewrite Hc, <- app_assoc. auto.
Qed.

(** X22. [iter_batches] yields batches exactly when [batch_size] is
    positive, and raises [ValueError] otherwise.  The batches yielded,
    put end to end, are the samples in order; none is empty or longer than
    [batch_size]; and all but the last hold exactly [batch_size]
    samples. *)
Theorem iter_batches_partition {A} (samples : list A) (batch_size : Z) :
  ((batch_size <= 0)%Z ->
   iter_batches samples batch_size
   = Raise (ValueError (py "batch_size must be positive")))
  /\ ((0 < batch_size)%Z ->
      exists batches,
        iter_batches samples batch_size = Ok batches
        /\ concat batches = samples
        /\ Forall (fun b => b <> []
                            /\ (Z.of_nat (length b) <= batch_size)%Z) batches
        /\ Forall (fun b => Z.of_nat (length b) = batch_size)
                  (removelast batches)).
Proof.
  unfold iter_batches. split; intro H.
  - now replace (batch_size <=? 0)%Z with true by lia.
  - replace (batch_size <=? 0)%Z with false by lia.
    eexists. split; [reflexivity|].
    exact (batches_loop_spec samples [] H ltac:(cbn; lia)).
Qed.

(* ------------------------------------------------------------------ *)
(** ** The lines of a Textract response *)

Lemma collect_block_spec (lines : list str) (confidences : list float)
      (block : Block.t) :
  let (lines', confidences') := collect_block (lines, confidences) block in
  (lines' = lines /\ confidences' = confidences)
  \/ (exists text,
         text <> []
         /\ Block.BlockType block = Some (py "LINE")
         /\ Block.Text block = Some text
         /\ lines' = lines ++ [text]
         /\ (confidences' = confidences
             \/ exists conf, confidences' = confidences ++ [conf])).
Proof.
  unfold collect_block.
  destruct (Block.BlockType block) as [bt|]; [|now left].
  destruct (str_eq_dec bt (py "LINE")) as [->|]; [|now left].
  destruct (Block.Text block) as [[|c text]|]; try now left.
  destruct (Block.Confidence block); right; exists (c :: text);
    repeat split; eauto; discriminate.
Qed.

Lemma collect_lines_from (blocks : list Block.t) (lines : list str)
      (confidences : list float) :
  let (lines', confidences') :=
    fold_left collect_block blocks (lines, confidences) in
  exists new_lines new_confidences,
    lines' = lines ++ new_lines
    /\ confidences' = confidences ++ new_confidences
    /\ length new_confidences <= length new_lines <= length blocks
    /\ (forall text, In text new_lines ->
          text <> []
          /\ exists block, In block blocks
                           /\ Block.BlockType block = Some (py "LINE")
                           /\ Block.Text block = Some text).
Proof.
  revert lines confidences; induction blocks as [|b blocks IH];
    intros lines confidences.
  - cbn. exists [], []. rewrite !app_nil_r.
    split; [reflexivity|]. split; [reflexivity|]. split; [cbn; lia|].
    intros ? [].
  - cbn [fold_left].
    pose proof (collect_block_spec lines confidences b) as S.
    destruct (collect_block (lines, confidences) b) as [l1 c1].
    specialize (IH l1 c1).
    destruct (fold_left collect_block blocks (l1, c1)) as [l2 c2].
    destruct IH as (nl & nc & -> & -> & (Hle1 & Hle2) & Hin).
    destruct S as [(-> & ->)|(text & Hne & Hty & Htx & -> & Hc)].
    + exists nl, nc. cbn [length In]. repeat split; auto; try lia.
      * apply (Hin _ H).
      * destruct (Hin _ H) as (_ & blk & ? & ? & ?). eauto 6.
    + assert (T : forall t, In t (text :: nl) ->
                  t <> []
                  /\ exists block, In block (b :: blocks)
                                   /\ Block.BlockType block = Some (py "LINE")
                                   /\ Block.Text block = Some t).
      { intros t [<-|Ht].
        - split; [exact Hne|]. exists b. cbn; auto.
        - destruct (Hin _ Ht) as (? & blk & ? & ? & ?).
          split; [assumption|]. exists blk. cbn; auto. }
      destruct Hc as [->|(conf & ->)].
      * exists (text :: nl), nc. rewrite <- app_assoc.
        cbn [length app]. split; [reflexivity|]. split; [reflexivity|].
        split; [lia | exact T].
      * exists (text :: nl), (conf :: nc). rewrite <- !app_assoc.
        cbn [length app]. split; [reflexivity|]. split; [reflexivity|].
        split; [lia | exact T].
Qed.

(** X23. [_collect_lines] returns at most one line for each block and at
    most one confidence for each line; every line it returns is the text,
    not empty, of a block of type LINE of the response. *)
Theorem collect_lines_sound (blocks : list Block.t) :
  let (lines, confidences) := _collect_lines blocks in
  length confidences <= length lines <= length blocks
  /\ (forall text, In text lines ->
        text <> []
        /\ exists block, In block blocks
                         /\ Block.BlockType block = Some (py "LINE")
                         /\ Block.Text block = Some text).
Proof.
  unfold _collect_lines.
  pose proof (collect_lines_from blocks [] []) as H.
  destruct (fold_left collect_block blocks ([], [])) as [lines confidences].
  destruct H as (nl & nc & -> & -> & Hle & Hin). cbn [app]. auto.
Qed.

(* ------------------------------------------------------------------ *)
(** ** The whitespace of a normalized text *)

Lemma single_spaced_spaces (s : str) (b : bool) (c : char) :
  single_spaced b s -> In c s -> is_space c = true -> c = SPACE.
Proof.
  revert b; induction s as [|d s IH]; intros b Hs Hin Hc; [destruct Hin|].
  cbn [single_spaced] in Hs. destruct Hin as [->|Hin].
  - rewrite Hc in Hs. now destruct Hs.
  - destruct (is_space d); [destruct Hs as (_ & _ & Hs)|]; eauto.
Qed.

(** X24. The only whitespace of a normalized text is the single space
    between two words: every whitespace character of [normalize_text x] is
    a space, and substituting whitespace runs or stripping the text again
    changes nothing. *)
Theorem normalized_whitespace {U : Unicode} (x : str) :
  (forall c, In c (normalize_text x) -> is_space c = true -> c = SPACE)
  /\ whitespace_sub (normalize_text x) = normalize_text x
  /\ strip (normalize_text x) = normalize_text x.
Proof.
  split; [|exact (strip_sub_fixed (lower (nfkc x)))].
  intros c. unfold normalize_text, normalize_text_with.
  rewrite strip_lstrip_rstrip.
  apply (@single_spaced_spaces _ false).
  apply single_spaced_rstrip, (single_spaced_lstrip _ false false).
  apply sub_run_single_spaced.
Qed.

(* ------------------------------------------------------------------ *)
(** ** The properties on the small runs *)

Lemma word_sequence_tokens_clean_witness :
  py "ab" <> [] /\ (forall c, In c (py "ab") -> is_space c = false).
Proof.
  apply (@word_sequence_tokens_clean ascii_unicode (py " ab  c ") (py "ab")).
  vm_compute. now left.
Defined.

Lemma token_overlap_Permutation_witness :
  token_overlap [py "a"; py "b"] [py "a"]
  = token_overlap [py "b"; py "a"] [py "a"].
Proof.
  apply (@token_overlap_Permutation
           [py "a"; py "b"] [py "b"; py "a"] [py "a"] [py "a"]).
  - apply perm_swap.
  - apply Permutation_refl.
Defined.

Lemma sample_records_metrics_witness :
  Forall (fun r => SampleEvaluation.metrics r
                   = @compute_metrics ascii_unicode
                       (SampleEvaluation.ground_truth r)
                       (SampleEvaluation.prediction r))
         (MethodEvaluation.samples
            (Example.method_of
               (Example.evaluate_method Example.samples Example.plaintext
                                        Example.start))).
Proof.
  exact (@sample_records_metrics
           Example.World Example.Exn Example.Meta
           Example.perf_counter ascii_unicode
           Example.samples Example.plaintext Example.start
           (snd (Example.evaluate_method Example.samples Example.plaintext
                                         Example.start))
           _ eq_refl).
Defined.

Lemma aggregated_metrics_means_witness :
  map fst
      (MethodEvaluation.aggregated_metrics
         (Example.method_of
            (Example.evaluate_method Example.samples Example.plaintext
                                     Example.start)))
  = metric_names.
Proof.
  rewrite (@aggregated_metrics_means
             Example.World Example.Exn Example.Meta
             Example.perf_counter ascii_unicode
             Example.samples Example.plaintext Example.start
             (snd (Example.evaluate_method Example.samples Example.plaintext
                                           Example.start))
             (Example.method_of
                (Example.evaluate_method Example.samples Example.plaintext
                                         Example.start))
             eq_refl ltac:(discriminate)).
  rewrite map_map. apply map_id.
Defined.

Lemma average_latency_mean_witness :
  MethodEvaluation.method_name
    (Example.method_of
       (Example.evaluate_method Example.samples Example.plaintext
                                Example.start))
  = py "plaintext".
Proof.
  exact (proj2 (@average_latency_mean
                  Example.World Example.Exn Example.Meta
                  Example.perf_counter ascii_unicode
                  Example.samples Example.plaintext Example.start
                  (snd (Example.evaluate_method Example.samples
                                                Example.plaintext Example.start))
                  _ eq_refl)).
Defined.

Lemma report_methods_keys_witness :
  map fst
      (BenchmarkReport.methods
         (Example2.report_of
            (Example.run [] [Example.plaintext; Example2.plaintext_again]
                         Example.start)))
  = [py "plaintext"].
Proof.
  exact (proj1 (@report_methods_keys
                  Example.World Example.Exn Example.Meta
                  Example.perf_counter Example.timestamp_now ascii_unicode
                  [] [Example.plaintext; Example2.plaintext_again]
                  Example.start
                  (snd (Example.run [] [Example.plaintext;
                                        Example2.plaintext_again]
                                    Example.start))
                  (Example2.report_of
                     (Example.run [] [Example.plaintext;
                                      Example2.plaintext_again]
                                  Example.start))
                  eq_refl)).
Defined.

Lemma last_extractor_of_a_name_witness :
  dict_get
    (BenchmarkReport.methods
       (Example2.report_of
          (Example.run [] [Example.plaintext; Example2.plaintext_again]
                       Example.start)))
    (py "plaintext")
  = Some (Example.method_of
            (Example.evaluate_method [] Example2.plaintext_again
               (snd (Example2.run_loop [] [Example.plaintext] []
                                       Example.start)))).
Proof.
  exact (@last_extractor_of_a_name
           Example.World Example.Exn Example.Meta
           Example.perf_counter Example.timestamp_now ascii_unicode
           [] [Example.plaintext] [] Example2.plaintext_again
           Example.start
           (snd (Example2.run_loop [] [Example.plaintext] [] Example.start))
           (snd (Example.evaluate_method [] Example2.plaintext_again
                   (snd (Example2.run_loop [] [Example.plaintext] []
                                           Example.start))))
           (snd (Example.run [] [Example.plaintext; Example2.plaintext_again]
                             Example.start))
           (Example2.methods_of
              (Example2.run_loop [] [Example.plaintext] [] Example.start))
           (Example.method_of
              (Example.evaluate_method [] Example2.plaintext_again
                 (snd (Example2.run_loop [] [Example.plaintext] []
                                         Example.start))))
           (Example2.report_of
              (Example.run [] [Example.plaintext; Example2.plaintext_again]
                           Example.start))
           eq_refl eq_refl (fun _ F => match F with end) eq_refl).
Defined.

(* ------------------------------------------------------------------ *)
(** ** Cleanup in every run *)

Section CleanupFacts.
Variables World Exn Meta : Type.
Variable perf_counter : World -> float * World.
Variable timestamp_now : World -> str * World.
Context {U : Unicode}.

#[local] Abbreviation extractor_t := (BaseExtractor World Exn Meta).
#[local] Abbreviation sample_t := (DocumentSample.t Meta).
#[local] Abbreviation state_t := (state World).

(** The first extraction call that raises, when one does. *)
Lemma extractions_fail_at (e : extractor_t) (samples : list sample_t)
      (w : World) :
  extractions_succeed perf_counter e samples w = None ->
  exists pre s post w_s t0 w1 x w2,
    samples = pre ++ s :: post
    /\ extractions_succeed perf_counter e pre w = Some w_s
    /\ perf_counter w_s = (t0, w1)
    /\ ext_run e s w1 = (Raise x, w2).
Proof.
  revert w; induction samples as [|s rest IH]; intros w H; [discriminate|].
  cbn [extractions_succeed] in H.
  destruct (perf_counter w) as [t0 w1] eqn:H0.
  destruct (ext_run e s w1) as [[r|x] w2] eqn:H1.
  - destruct (perf_counter w2) as [t1 w3] eqn:H2.
    destruct (IH _ H) as (pre & s' & post & w_s & t0' & w1' & x & w2'
                          & -> & Hpre & Hc & Hr).
    exists (s :: pre), s', post, w_s, t0', w1', x, w2'.
    repeat split; auto.
    cbn [extractions_succeed]. now rewrite H0, H1, H2.
  - exists [], s, rest, w, t0, w1, x, w2. repeat split; auto.
Qed.

(** The first extractor one of whose extraction calls raises. *)
Lemma all_extractions_fail_at (extractors : list extractor_t)
      (samples : list sample_t) (w : World) :
  all_extractions_succeed perf_counter extractors samples w = None ->
  exists before e after w_e,
    extractors = before ++ e :: after
    /\ all_extractions_succeed perf_counter before samples w = Some w_e
    /\ extractions_succeed perf_counter e samples w_e = None.
Proof.
  revert w; induction extractors as [|e rest IH]; intros w H; [discriminate|].
  cbn [all_extractions_succeed] in H.
  destruct (extractions_succeed perf_counter e samples w) as [w1|] eqn:E.
  - destruct (IH _ H) as (before & e' & after & w_e & -> & Hb & He).
    exists (e :: before), e', after, w_e. repeat split; auto.
    cbn [all_extractions_succeed]. now rewrite E.
  - exists [], e, rest, w. repeat split; auto.
Qed.

(** The outcome and the calls of a run in which the extractors of [before]
    go through and [e] raises on the sample [s]. *)
Lemma run_raises_at (before after : list extractor_t) (e : extractor_t)
      (pre post : list sample_t) (s : sample_t) (st : state_t)
      (w_e w_s w1 w2 : World) (t0 : float) (x : Exn) :
  let samples := pre ++ s :: post in
  all_extractions_succeed perf_counter before samples (world st) = Some w_e ->
  extractions_succeed perf_counter e pre w_e = Some w_s ->
  perf_counter w_s = (t0, w1) ->
  ext_run e s w1 = (Raise x, w2) ->
  run perf_counter timestamp_now samples (before ++ e :: after) st
  = (Raise x,
     {| world := w2;
        trace := trace st ++ calls_of_run before samples
                 ++ run_calls e (pre ++ [s]) |}).
Proof.
  intros samples Hb Hpre Hc Hr. subst samples.
  destruct (run_loop_succeeds perf_counter (pre ++ s :: post) before [] st Hb)
    as (methods & st_e & Eb & Hwe).
  destruct (run_loop_ok _ _ _ _ _ Eb) as (_ & _ & Htb).
  rewrite <- Hwe in Hpre.
  destruct (evaluate_loop_succeeds perf_counter e pre (no_accumulators Meta)
                                   st_e Hpre)
    as (acc & st1 & Ep & Hws).
  destruct (evaluate_loop_ok _ _ _ _ _ Ep) as (_ & _ & _ & Htp).
  rewrite <- Hws in Hc.
  rewrite run_unfold, run_loop_app, Eb, run_loop_cons, evaluate_method_unfold.
  rewrite evaluate_loop_app, Ep, evaluate_loop_cons.
  rewrite (evaluate_sample_raises perf_counter e acc s st1 Hc Hr).
  rewrite Htp, Htb. unfold run_calls. rewrite map_app, <- !app_assoc.
  reflexivity.
Qed.

(** C8, as the code has it.  In every run, the calls made to the extractors
    are, for each extractor whose samples were all evaluated, [run] on every
    sample in order and then [cleanup], once, before the next extractor
    starts; this also holds for the extractors that went through before a
    later one failed.  When the run returns a report, that is every
    extractor.  When it raises, the extractor [e] whose [run] raised has
    only its [run] calls up to the failing sample: no [cleanup] is called
    for it, nor anything for the extractors after it.  For each name, the
    number of [cleanup] calls is the number of extractors of that name
    whose samples were all evaluated. *)
Theorem cleanup_once_per_completed_extractor
        (samples : list sample_t) (extractors : list extractor_t)
        (st : state_t) :
  exists completed calls,
    trace (snd (run perf_counter timestamp_now samples extractors st))
    = trace st ++ calls
    /\ match fst (run perf_counter timestamp_now samples extractors st) with
       | Ok _ =>
           completed = extractors
           /\ calls = calls_of_run extractors samples
       | Raise _ =>
           exists e after pre s post,
             extractors = completed ++ e :: after
             /\ samples = pre ++ s :: post
             /\ calls = calls_of_run completed samples
                        ++ run_calls e (pre ++ [s])
       end
    /\ (forall n,
          count_occ event_eq_dec calls (CleanupCalled n)
          = count_occ str_eq_dec (map (@name _ _ _) completed) n).
Proof.
  destruct (all_extractions_succeed perf_counter extractors samples (world st))
    as [w'|] eqn:H.
  - destruct (successful_run_calls perf_counter timestamp_now
                                   samples extractors st H)
      as (report & st' & -> & Htr & Hcount).
    exists extractors, (calls_of_run extractors samples). cbn [fst snd].
    auto.
  - destruct (all_extractions_fail_at _ _ _ H)
      as (before & e & after & w_e & -> & Hb & He).
    destruct (extractions_fail_at _ _ _ He)
      as (pre & s & post & w_s & t0 & w1 & x & w2 & -> & Hpre & Hc & Hr).
    rewrite (run_raises_at before after e pre post s st Hb Hpre Hc Hr).
    exists before, (calls_of_run before (pre ++ s :: post)
                    ++ run_calls e (pre ++ [s])).
    cbn [fst snd trace]. split; [reflexivity|]. split.
    + exists e, after, pre, s, post. auto.
    + intro n.
      rewrite count_occ_app, count_cleanup_in_run_calls, Nat.add_0_r.
      apply count_cleanup_calls.
Qed.

End CleanupFacts.

Lemma cleanup_once_per_completed_extractor_witness :
  exists completed calls,
    trace (snd (Example.run Example.samples
                            [Example.plaintext; Example.flaky] Example.start))
    = trace Example.start ++ calls
    /\ match fst (Example.run Example.samples
                              [Example.plaintext; Example.flaky]
                              Example.start) with
       | Ok _ =>
           completed = [Example.plaintext; Example.flaky]
           /\ calls = calls_of_run [Example.plaintext; Example.flaky]
                                   Example.samples
       | Raise _ =>
           exists e after pre s post,
             [Example.plaintext; Example.flaky] = completed ++ e :: after
             /\ Example.samples = pre ++ s :: post
             /\ calls = calls_of_run completed Example.samples
                        ++ run_calls e (pre ++ [s])
       end
    /\ (forall n,
          count_occ event_eq_dec calls (CleanupCalled n)
          = count_occ str_eq_dec (map (@name _ _ _) completed) n).
Proof.
  exact (@cleanup_once_per_completed_extractor
           Example.World Example.Exn Example.Meta
           Example.perf_counter Example.timestamp_now ascii_unicode
           Example.samples [Example.plaintext; Example.flaky] Example.start).
Defined.
